(** * The Ada release adapter (scripts/release/adapters/ada.py)

    A shallow embedding of [AdaReleaseAdapter] and of the parts of the
    Python runtime it leans on: [str] values, the two regular expressions
    over [alire.toml], [pathlib] over a file store, [print], and
    exceptions with [try]/[except].

    Conventions of the model.
    - A [str] is a list of Unicode code points.
    - The file store maps an absolute path (its list of components) to a
      directory or a file.  A file holds its decoded characters as they
      are on disk; [read_text] applies Python's universal-newline
      translation, [write_text] stores the text as it is (POSIX, where
      [os.linesep] is a line feed).
    - What can raise: [exists] (when stat fails with an error other than
      the four it swallows), [read_text] and [write_text] (a directory
      in place of the file, a file that cannot be read, decoded or
      opened for writing, a missing file, a text that UTF-8 cannot
      encode, a device that fails), [re.sub] while it compiles the
      replacement template, and [relative_to].  A write that fails after
      the file was opened leaves the file cut.  The globs and [print] do
      not raise.
    - What the operating system refuses lies outside the store and is a
      parameter, the class [OS].  A statement that names no operating
      system is about [calm], where every path can be examined and the
      device takes every write: there the store stands for all that the
      process can reach.  [detect], a function of the layout alone, is
      given for such a store.
    - [run_command] belongs to [BaseReleaseAdapter] (adapters/base.py),
      which is not part of the sources at hand; it is a parameter. *)

From Stdlib Require Import String Ascii NArith List Lia.
From stdpp Require Import base option list gmap.

Local Open Scope N_scope.

(** ** Text *)

Abbreviation char := N.
Abbreviation text := (list N).
Abbreviation path := (list (list N)).

(** A literal of the source, as code points. *)
Definition T (s : string) : text :=
  List.map N_of_ascii (list_ascii_of_string s).

Definition nl : char := 10.
Definition cr : char := 13.
Definition dquote : char := 34.
Definition backslash : char := 92.
Definition underscore : char := 95.

(** [\s] of [re] on a [str] pattern: [Py_UNICODE_ISSPACE]. *)
Definition is_space (c : char) : bool :=
  ((9 <=? c) && (c <=? 13)) || ((28 <=? c) && (c <=? 32))
  || (c =? 133) || (c =? 160) || (c =? 5760)
  || ((8192 <=? c) && (c <=? 8202))
  || (c =? 8232) || (c =? 8233) || (c =? 8239) || (c =? 8287)
  || (c =? 12288).

Definition not_dquote (c : char) : bool := negb (c =? dquote).

Definition is_digit (c : char) : bool := (48 <=? c) && (c <=? 57).
Definition is_octdigit (c : char) : bool := (48 <=? c) && (c <=? 55).
Definition is_upper (c : char) : bool := (65 <=? c) && (c <=? 90).
Definition is_lower (c : char) : bool := (97 <=? c) && (c <=? 122).
Definition is_ascii_letter (c : char) : bool := is_upper c || is_lower c.

(** [str.lower] and [str.capitalize].  The case mapping is the ASCII one;
    a code point from 128 on is left as it is (CPython maps those through
    the Unicode case tables, which are not modelled). *)
Definition lower_char (c : char) : char := if is_upper c then c + 32 else c.
Definition upper_char (c : char) : char := if is_lower c then c - 32 else c.

Definition lower (s : text) : text := lower_char <$> s.

Definition capitalize (s : text) : text :=
  match s with
  | [] => []
  | c :: s' => upper_char c :: lower s'
  end.

(** [s.split(sep)] for a one-character separator. *)
Fixpoint split (sep : char) (s : text) : list text :=
  match s with
  | [] => [[]]
  | c :: s' =>
      if c =? sep then [] :: split sep s'
      else match split sep s' with
           | [] => [[c]]
           | w :: ws => (c :: w) :: ws
           end
  end.

(** [sep.join(parts)]. *)
Fixpoint join (sep : text) (parts : list text) : text :=
  match parts with
  | [] => []
  | [w] => w
  | w :: ws => w ++ sep ++ join sep ws
  end.

Fixpoint starts_with (lit s : text) : bool :=
  match lit, s with
  | [], _ => true
  | a :: lit', c :: s' => (a =? c) && starts_with lit' s'
  | _ :: _, [] => false
  end.

(** [s.endswith(suffix)]. *)
Definition endswith (s suffix : text) : bool :=
  starts_with (reverse suffix) (reverse s).

(** [s[:-n]]. *)
Definition drop_last (n : nat) (s : text) : text :=
  take (length s - n)%nat s.

(** Universal newlines of a text-mode read: CR LF and a lone CR become
    LF. *)
Fixpoint universal_newlines (s : text) : text :=
  match s with
  | [] => []
  | c :: s' =>
      if c =? cr then
        match s' with
        | d :: s'' => if d =? nl then universal_newlines s'
                      else nl :: universal_newlines s'
        | [] => [nl]
        end
      else c :: universal_newlines s'
  end.

(** ** Exceptions *)

Inductive exn :=
| IOError (what : text) (p : path)
    (* an OSError (or UnicodeDecodeError) of exists / read_text /
       write_text *)
| ReError (msg : text)
    (* re.error, or the IndexError of an unknown group name *)
| ValueError (msg : text).
    (* also the UnicodeEncodeError of write_text *)

Definition path_str (p : path) : text :=
  let fix go (p : path) : text :=
    match p with
    | [] => []
    | c :: p' => T "/" ++ c ++ go p'
    end in
  match p with [] => T "/" | _ => go p end.

(** [str(p.relative_to(root))] joins the remaining components. *)
Definition rel_str (p : path) : text := join (T "/") p.

(** [str(e)]. *)
Definition exn_str (e : exn) : text :=
  match e with
  | IOError what p => what ++ T ": '" ++ path_str p ++ T "'"
  | ReError msg => msg
  | ValueError msg => msg
  end.

Inductive result (A : Type) :=
| Ok (a : A)
| Err (e : exn).
Arguments Ok {A} a.
Arguments Err {A} e.

Definition result_bind {A B} (r : result A) (k : A → result B) : result B :=
  match r with
  | Ok a => k a
  | Err e => Err e
  end.

(** ** The regular expressions of the adapter

    In the comments, Q stands for the double quote character.  All four
    patterns have the shape [^ key \s* = \s* Q [^Q]+ Q] under
    [re.MULTILINE], one of them with a leading [\s*] before the key.
    Every greedy loop in them is followed by a character the loop cannot
    take (the first letter of the key, [=], the quote), so giving a
    character back never helps: one left-to-right pass decides an attempt,
    and [match_field_complete] below shows that the split it returns is
    the only one there is. *)

(** The longest prefix of [s] made of characters satisfying [p], and what
    follows it. *)
Fixpoint span (p : char → bool) (s : text) : text * text :=
  match s with
  | c :: s' =>
      if p c then let '(a, b) := span p s' in (c :: a, b) else ([], s)
  | [] => ([], [])
  end.

(** [s] without its prefix [lit], if it starts with it. *)
Fixpoint strip_prefix (lit s : text) : option text :=
  match lit, s with
  | [], _ => Some s
  | a :: lit', c :: s' => if a =? c then strip_prefix lit' s' else None
  | _ :: _, [] => None
  end.

(** A match: the text from its start through the opening quote, the
    quoted value, and the text after the closing quote. *)
Record field_match := FieldMatch {
  m_open : text;
  m_value : text;
  m_rest : text
}.

Definition equals_sign : char := 61.

(** One attempt at the head of [s]; [lead] tells whether the pattern
    begins with [\s*]. *)
Definition match_field (lead : bool) (key : text) (s : text)
  : option field_match :=
  let '(w1, s1) := if lead then span is_space s else ([], s) in
  s2 ← strip_prefix key s1;
  let '(w2, s3) := span is_space s2 in
  s4 ← strip_prefix [equals_sign] s3;
  let '(w3, s5) := span is_space s4 in
  s6 ← strip_prefix [dquote] s5;
  let '(v, s7) := span not_dquote s6 in
  match v with
  | [] => None
  | _ :: _ =>
      s8 ← strip_prefix [dquote] s7;
      Some (FieldMatch (w1 ++ key ++ w2 ++ [equals_sign] ++ w3 ++ [dquote])
                       v s8)
  end.

(** [r'^name\s*=\s*Q([^Q]+)Q'] *)
Definition name_pattern : text → option field_match :=
  match_field false (T "name").
(** [r'^website\s*=\s*Q([^Q]+)Q'] *)
Definition website_pattern : text → option field_match :=
  match_field false (T "website").
(** [r'^version\s*=\s*Q([^Q]+)Q'] *)
Definition version_pattern : text → option field_match :=
  match_field false (T "version").
(** [r'^(\s*version\s*=\s*Q)[^Q]+(Q)'] *)
Definition version_sub_pattern : text → option field_match :=
  match_field true (T "version").

(** [re.search(pattern, s, re.MULTILINE)]: the attempts run from the left;
    [bol] says whether the position is the start of the text or follows a
    line feed, which is where [^] holds. *)
Fixpoint search_from (pat : text → option field_match) (bol : bool) (s : text)
  : option field_match :=
  match (if bol then pat s else None) with
  | Some m => Some m
  | None =>
      match s with
      | [] => None
      | c :: s' => search_from pat (c =? nl) s'
      end
  end.

Definition re_search (pat : text → option field_match) (s : text)
  : option field_match :=
  search_from pat true s.

(** [match.group(1)] of the three lookup patterns. *)
Definition group1 (m : field_match) : text := m_value m.

(** *** Replacement templates ([re._parser.parse_template]) *)

Inductive piece :=
| Chr (c : char)
| Group (n : N).

Definition digits_value (base : N) (ds : text) : N :=
  fold_left (λ acc d, base * acc + (d - 48)) ds 0.

(** The [ESCAPES] table: [\a \b \f \n \r \t \v \\]. *)
Definition escapes (c : char) : option char :=
  if c =? 97 then Some 7 else if c =? 98 then Some 8
  else if c =? 102 then Some 12 else if c =? 110 then Some 10
  else if c =? 114 then Some 13 else if c =? 116 then Some 9
  else if c =? 118 then Some 11 else if c =? backslash then Some backslash
  else None.

(** The name of [\g<name>]: the text up to [>], and what follows it. *)
Fixpoint getuntil_gt (s : text) : option (text * text) :=
  match s with
  | [] => None
  | c :: s' =>
      if c =? 62 then Some ([], s')
      else '(name, rest) ← getuntil_gt s'; Some (c :: name, rest)
  end.

Definition MAXGROUPS : N := 1073741823.

(** The messages of [re.error] are kept short: CPython adds the position
    and the offending text.  A name that is neither a decimal number nor
    one of the pattern's named groups (it has none) raises in every case. *)
Definition group_ref (groups : N) (index : N) : result piece :=
  if groups <? index then Err (ReError (T "invalid group reference"))
  else Ok (Group index).

Fixpoint parse_template (fuel : nat) (groups : N) (s : text)
  : result (list piece) :=
  match fuel with
  | O => Ok []
  | S fuel =>
    let continue (p : piece) (rest : text) :=
      result_bind (parse_template fuel groups rest) (λ ps, Ok (p :: ps)) in
    match s with
    | [] => Ok []
    | c :: s1 =>
      if negb (c =? backslash) then continue (Chr c) s1
      else
        match s1 with
        | [] => Err (ReError (T "bad escape (end of pattern)"))
        | e :: s2 =>
          if e =? 103 then                                   (* \g *)
            match s2 with
            | [] => Err (ReError (T "missing <"))
            | lt :: s3 =>
              if negb (lt =? 60) then Err (ReError (T "missing <"))
              else
                match getuntil_gt s3 with
                | None => Err (ReError (T "missing >, unterminated name"))
                | Some ([], _) => Err (ReError (T "missing group name"))
                | Some (name, s4) =>
                  if forallb is_digit name then
                    let index := digits_value 10 name in
                    if MAXGROUPS <=? index
                    then Err (ReError (T "invalid group reference"))
                    else result_bind (group_ref groups index)
                                     (λ p, continue p s4)
                  else Err (ReError (T "unknown or bad group name"))
                end
            end
          else if e =? 48 then                               (* \0, \0d, \0dd *)
            match s2 with
            | d1 :: s3 =>
              if is_octdigit d1 then
                match s3 with
                | d2 :: s4 =>
                  if is_octdigit d2
                  then continue
                         (Chr (N.land (digits_value 8 [e; d1; d2]) 255)) s4
                  else continue (Chr (digits_value 8 [e; d1])) s3
                | [] => continue (Chr (digits_value 8 [e; d1])) s3
                end
              else continue (Chr 0) s2
            | [] => continue (Chr 0) s2
            end
          else if is_digit e then                       (* \1 .. \99, \ddd *)
            match s2 with
            | d1 :: s3 =>
              if is_digit d1 then
                match s3 with
                | d2 :: s4 =>
                  if is_octdigit e && is_octdigit d1 && is_octdigit d2 then
                    let c := digits_value 8 [e; d1; d2] in
                    if 255 <? c
                    then Err (ReError (T "octal escape value outside of range"))
                    else continue (Chr c) s4
                  else result_bind (group_ref groups (digits_value 10 [e; d1]))
                                   (λ p, continue p s3)
                | [] => result_bind (group_ref groups (digits_value 10 [e; d1]))
                                    (λ p, continue p s3)
                end
              else result_bind (group_ref groups (digits_value 10 [e]))
                               (λ p, continue p s2)
            | [] => result_bind (group_ref groups (digits_value 10 [e]))
                                (λ p, continue p s2)
            end
          else
            match escapes e with
            | Some c' => continue (Chr c') s2
            | None =>
              if is_ascii_letter e then Err (ReError (T "bad escape"))
              else result_bind (parse_template fuel groups s2)
                               (λ ps, Ok (Chr backslash :: Chr e :: ps))
            end
        end
    end
  end.

(** [match.expand(template)] for a pattern with the two groups of
    [version_sub_pattern]: group 1 is the opening part, group 2 the
    closing quote, group 0 the whole match. *)
Definition group_text (m : field_match) (n : N) : text :=
  if n =? 0 then m_open m ++ m_value m ++ [dquote]
  else if n =? 1 then m_open m
  else [dquote].

Definition expand (tpl : list piece) (m : field_match) : text :=
  flat_map (λ p, match p with
                 | Chr c => [c]
                 | Group n => group_text m n
                 end) tpl.

(** The scan of [re.sub]: the leftmost match from the current position
    is replaced and the scan goes on right after it; the text between
    matches is copied.  [fuel] bounds the number of steps; the length of
    the text is enough ([sub_from_fuel]). *)
Fixpoint sub_from (fuel : nat) (pat : text → option field_match)
    (repl : field_match → text) (bol : bool) (s : text) : text :=
  match fuel with
  | O => s
  | S fuel =>
    match (if bol then pat s else None) with
    | Some m => repl m ++ sub_from fuel pat repl false (m_rest m)
    | None =>
        match s with
        | [] => []
        | c :: s' => c :: sub_from fuel pat repl (c =? nl) s'
        end
    end
  end.

(** [re.sub(r'^(\s*version\s*=\s*Q)[^Q]+(Q)', repl, s, flags=re.MULTILINE)].
    The template is compiled before the scan starts, so a template that
    does not compile raises whatever [s] is. *)
Definition re_sub_version (repl : text) (s : text) : result text :=
  result_bind (parse_template (length repl) 2 repl) (λ tpl,
    Ok (sub_from (length s) version_sub_pattern (expand tpl) true s)).

(** [rf'\g<1>{version}\g<2>'] *)
Definition version_template (version : text) : text :=
  T "\g<1>" ++ version ++ T "\g<2>".

(** ** Paths and the file store *)

(** [p / name] *)
Definition child (p : path) (name : text) : path := p ++ [name].
Notation "p // s" := (child p (T s)) (at level 40, left associativity).

(** [p.name]: the last component, empty for the root of the file system. *)
Definition path_name (p : path) : text := List.last p [].

(** [p.parent] *)
Definition path_parent (p : path) : path := removelast p.

(** [p.relative_to(root)] raises ValueError when [p] is not under [root]. *)
Definition relative_to (p root : path) : result path :=
  if bool_decide (take (length root) p = root)
  then Ok (drop (length root) p)
  else Err (ValueError (path_str p ++ T " is not in the subpath of "
                        ++ path_str root)).

Record file := File {
  readable : bool;   (* read_text succeeds: permissions and UTF-8 *)
  writable : bool;   (* the file can be opened for writing *)
  data : text        (* the characters on disk *)
}.

Inductive node :=
| Directory
| Regular (f : file).

Abbreviation filesys := (gmap path node).

(** What lies outside the store.  [stat_fault p] is the error of stat
    on [p] that [Path.exists] lets through: it swallows ENOENT, ENOTDIR,
    EBADF and ELOOP and raises every other [OSError] again (EACCES below
    a directory that may not be searched, ENAMETOOLONG).
    [write_fault p content] is the failure of the device while [content]
    is written to the file opened at [p] (ENOSPC, EIO), with the file
    that it leaves. *)
Class OS := {
  stat_fault : path → option exn;
  write_fault : path → text → option (exn * file)
}.

(** The operating system that refuses nothing. *)
#[export] Instance calm : OS := {|
  stat_fault _ := None;
  write_fault _ _ := None
|}.

(** Whether stat finds an entry: the result of [Path.exists] when it
    returns. *)
Definition fs_exists (fs : filesys) (p : path) : bool :=
  match fs !! p with
  | Some _ => true
  | None => false
  end.

(** A text that UTF-8 encodes: no surrogate code point. *)
Definition is_surrogate (c : char) : bool := (55296 <=? c) && (c <=? 57343).
Definition encodable (s : text) : bool :=
  forallb (λ c, negb (is_surrogate c)) s.

(** [Path.read_text(encoding='utf-8')] *)
Definition fs_read_text (fs : filesys) (p : path) : result text :=
  match fs !! p with
  | None => Err (IOError (T "No such file or directory") p)
  | Some Directory => Err (IOError (T "Is a directory") p)
  | Some (Regular f) =>
      if readable f then Ok (universal_newlines (data f))
      else Err (IOError (T "cannot read") p)
  end.

(** The message of the [UnicodeEncodeError], without the character and
    its position. *)
Definition surrogates_not_allowed : exn :=
  ValueError (T "'utf-8' codec can't encode character: "
              ++ T "surrogates not allowed").

(** [f.write(content)] and the closing of the file, once [open(p, 'w')]
    has returned: the file is empty by then.  The text is encoded as a
    whole before anything reaches the device. *)
Definition write_opened {os : OS} (fs : filesys) (p : path) (r : bool)
    (content : text) : result unit * filesys :=
  if encodable content then
    match write_fault p content with
    | Some (e, cut) => (Err e, <[p := Regular cut]> fs)
    | None => (Ok tt, <[p := Regular (File r true content)]> fs)
    end
  else (Err surrogates_not_allowed, <[p := Regular (File r true [])]> fs).

(** [Path.write_text(content, encoding='utf-8')]: the outcome and the
    store it leaves.  When the file cannot be opened the store is as
    before. *)
Definition fs_write_text {os : OS} (fs : filesys) (p : path) (content : text)
  : result unit * filesys :=
  match fs !! p with
  | Some Directory => (Err (IOError (T "Is a directory") p), fs)
  | Some (Regular f) =>
      if writable f
      then write_opened fs p (readable f) content
      else (Err (IOError (T "Permission denied") p), fs)
  | None =>
      match fs !! path_parent p with
      | Some Directory => write_opened fs p true content
      | _ => (Err (IOError (T "No such file or directory") p), fs)
      end
  end.

(** The entries strictly below [root].  In a file system every entry
    lies under directories, so these are the paths [root] is a proper
    prefix of. *)
Definition is_below (root p : path) : bool :=
  bool_decide (take (length root) p = root)
  && bool_decide (length root < length p)%nat.

Definition entries (fs : filesys) : list path := (map_to_list fs).*1.

(** [root.glob('*' + suffix)]: the entries of [root] itself. *)
Definition glob_star (fs : filesys) (root : path) (suffix : text)
  : list path :=
  List.filter (λ p, is_below root p
                    && bool_decide (length p = S (length root))
                    && endswith (path_name p) suffix)
              (entries fs).

(** [root.glob('**/*' + suffix)]: the entries at any depth. *)
Definition glob_rec_star (fs : filesys) (root : path) (suffix : text)
  : list path :=
  List.filter (λ p, is_below root p && endswith (path_name p) suffix)
              (entries fs).

(** [root.rglob(name)] for a name without wildcards.  The order of the
    result is the store's; on a real system it is the order of the
    directory scans. *)
Definition rglob (fs : filesys) (root : path) (name : text) : list path :=
  List.filter (λ p, is_below root p && bool_decide (path_name p = name))
              (entries fs).

(** ** The world and the monad of effects *)

(** An external command as handed to [run_command]. *)
Record command := Command {
  argv : list text;
  cwd : path;
  capture_output : bool
}.

Record world := World {
  fs : filesys;            (* the file store *)
  stdout : list text;      (* the lines printed so far *)
  invoked : list command   (* the external commands run so far *)
}.

Definition M (A : Type) : Type := world → result A * world.

Definition ret {A} (a : A) : M A := λ w, (Ok a, w).

Definition bind {A B} (m : M A) (k : A → M B) : M B :=
  λ w, match m w with
       | (Ok a, w') => k a w'
       | (Err e, w') => (Err e, w')
       end.

Notation "'do' x <- m ; k" := (bind m (λ x, k))
  (at level 10, x name, m at level 100, k at level 200, only parsing).
Notation "'do' ' pat <- m ; k" := (bind m (λ x, match x with pat => k end))
  (at level 10, pat pattern, m at level 100, k at level 200, only parsing).
Notation "m ;; k" := (bind m (λ _, k))
  (at level 100, k at level 200, right associativity, only parsing).

(** [try: body / except Exception as e: handler e] *)
Definition try_except {A} (body : M A) (handler : exn → M A) : M A :=
  λ w, match body w with
       | (Ok a, w') => (Ok a, w')
       | (Err e, w') => handler e w'
       end.

(** A pure computation that may raise. *)
Definition lift {A} (r : result A) : M A := λ w, (r, w).

Definition print (line : text) : M unit :=
  λ w, (Ok tt, World (fs w) (stdout w ++ [line]) (invoked w)).

(** [p.exists()] *)
Definition path_exists {os : OS} (p : path) : M bool :=
  λ w, match stat_fault p with
       | Some e => (Err e, w)
       | None => (Ok (fs_exists (fs w) p), w)
       end.

Definition read_text (p : path) : M text :=
  λ w, (fs_read_text (fs w) p, w).

Definition write_text {os : OS} (p : path) (content : text) : M unit :=
  λ w, let '(r, fs') := fs_write_text (fs w) p content in
       (r, World fs' (stdout w) (invoked w)).

Definition do_rglob (root : path) (name : text) : M (list path) :=
  λ w, (Ok (rglob (fs w) root name), w).

(** [for x in xs: body x] *)
Fixpoint for_each {A} (xs : list A) (body : A → M unit) : M unit :=
  match xs with
  | [] => ret tt
  | x :: xs' => body x ;; for_each xs' body
  end.

(** ** The adapter *)

(** [ReleaseConfig], as far as the adapter reads it. *)
Record ReleaseConfig := {
  project_root : path;
  version : text;
  project_name : text
}.

(** [AdaReleaseAdapter.name] *)
Definition name : text := T "Ada".

(** [AdaReleaseAdapter.detect] *)
Definition detect (fs : filesys) (project_root : path) : bool :=
  if fs_exists fs (project_root // "alire.toml") then true
  else if negb (bool_decide (glob_star fs project_root (T ".gpr") = []))
  then true
  else if negb (bool_decide (glob_rec_star fs project_root (T ".gpr") = []))
  then true
  else if negb (bool_decide (glob_rec_star fs project_root (T ".ads") = []))
          || negb (bool_decide (glob_rec_star fs project_root (T ".adb") = []))
  then true
  else false.

(** [AdaReleaseAdapter.load_project_info] *)
Definition load_project_info {os : OS} (config : ReleaseConfig)
  : M (text * text) :=
  let alire_toml := project_root config // "alire.toml" in
  do present <- path_exists alire_toml;
  do '(project_name, project_url) <-
    (if present then
       do content <- read_text alire_toml;
       let project_name :=
         match re_search name_pattern content with
         | Some name_match => group1 name_match
         | None => []
         end in
       let project_url :=
         match re_search website_pattern content with
         | Some website_match =>
             let url := group1 website_match in
             if endswith url (T ".git") then drop_last 4 url else url
         | None => []
         end in
       ret (project_name, project_url)
     else ret ([], []));
  let project_name :=
    match project_name with
    | [] => path_name (project_root config)
    | _ :: _ => project_name
    end in
  ret (project_name, project_url).

(** [AdaReleaseAdapter.update_version] *)
Definition update_version {os : OS} (config : ReleaseConfig) : M bool :=
  let root_toml := project_root config // "alire.toml" in
  do present <- path_exists root_toml;
  if negb present then
    print (T "  alire.toml not found") ;;
    ret false
  else
    try_except
      (do content <- read_text root_toml;
       (* is the version already correct? *)
       let current_match := re_search version_pattern content in
       let already :=
         match current_match with
         | Some m => bool_decide (group1 m = version config)
         | None => false
         end in
       if already then
         print (T "  Root alire.toml already has version = "
                ++ [dquote] ++ version config ++ [dquote]) ;;
         ret true
       else
         (* Update version line *)
         let old_content := content in
         do content <-
           lift (re_sub_version (version_template (version config)) content);
         if bool_decide (content = old_content) then
           print (T "  Error: Version field not found in "
                  ++ path_str root_toml) ;;
           ret false
         else
           write_text root_toml content ;;
           print (T "  Updated root alire.toml: version = "
                  ++ [dquote] ++ version config ++ [dquote]) ;;
           ret true)
      (λ e,
         print (T "Error updating root alire.toml: " ++ exn_str e) ;;
         ret false).

(** The body of the loop of [sync_versions] for one [alire.toml]. *)
Definition sync_one {os : OS} (config : ReleaseConfig) (toml_file : path)
  : M unit :=
  if bool_decide (path_parent toml_file = project_root config) then
    ret tt                                   (* Skip root (already updated) *)
  else
    try_except
      (do content <- read_text toml_file;
       do new_content <-
         lift (re_sub_version (version_template (version config)) content);
       if negb (bool_decide (new_content = content)) then
         write_text toml_file new_content ;;
         do rel_path <- lift (relative_to toml_file (project_root config));
         print (T "  Updated " ++ rel_str rel_path)
       else ret tt)
      (λ e,
         print (T "  Warning: Could not update " ++ path_str toml_file
                ++ T ": " ++ exn_str e)).

(** [project_name] and [package_name] of [generate_version_file]:
    the Ada casing of the project name. *)
Definition package_name (config : ReleaseConfig) : text :=
  let project_name := lower (project_name config) in
  if bool_decide (project_name = T "hybrid_app_ada") then
    T "Hybrid_App_Ada"
  else
    let parts := split underscore project_name in
    join (T "_") (capitalize <$> parts).

Section Commands.

(** Modelled from the spec: [BaseReleaseAdapter.run_command]
    (adapters/base.py) is not among the sources.  It executes an
    argument list in a working directory, optionally capturing the
    output, and returns a result object or [None], the failure
    indicator.  The result objects, their truth value and what the
    command does to the files are parameters. *)
Context {os : OS} {cmd_result : Type}.
Variable truthy : cmd_result → bool.
Variable execute : command → filesys → option cmd_result * filesys.

(** [sys.executable] *)
Variable sys_executable : text.

Definition run_command (args : list text) (cwd : path)
    (capture_output : bool) : M (option cmd_result) :=
  λ w, let c := Command args cwd capture_output in
       let '(r, fs') := execute c (fs w) in
       (Ok r, World fs' (stdout w) (invoked w ++ [c])).

(** [bool(result)] and [result is not None]. *)
Definition is_truthy (result : option cmd_result) : bool :=
  match result with
  | Some r => truthy r
  | None => false
  end.

Definition is_not_None (result : option cmd_result) : bool :=
  match result with
  | Some _ => true
  | None => false
  end.

(** [AdaReleaseAdapter.sync_versions] *)
Definition sync_versions (config : ReleaseConfig) : M bool :=
  print (T "Syncing versions across all layer alire.toml files...") ;;
  (* Find sync_versions.py script *)
  let sync_script :=
    project_root config // "scripts" // "release" // "sync_versions.py" in
  do found <- path_exists sync_script;
  (* Try alternative location *)
  let sync_script :=
    if negb found
    then project_root config // "scripts" // "sync_versions.py"
    else sync_script in
  do found <- path_exists sync_script;
  if found then
    do result <- run_command
                   [sys_executable; path_str sync_script; version config]
                   (project_root config) true;
    ret (is_not_None result)
  else
    (* Fallback: manually sync all alire.toml files *)
    do toml_files <- do_rglob (project_root config) (T "alire.toml");
    for_each toml_files (sync_one config) ;;
    ret true.

(** The line that [generate_version_file] prints when there is no
    generator script. *)
Definition skip_message : text :=
  T "  generate_version.py not found, skipping version package generation".

(** [AdaReleaseAdapter.generate_version_file] *)
Definition generate_version_file (config : ReleaseConfig) : M bool :=
  (* Find generate_version.py script *)
  let gen_script :=
    project_root config // "scripts" // "release" // "generate_version.py" in
  do found <- path_exists gen_script;
  let gen_script :=
    if negb found
    then project_root config // "scripts" // "generate_version.py"
    else gen_script in
  do found <- path_exists gen_script;
  if negb found then
    print skip_message ;;
    ret true
  else
    (* Convert project name to proper Ada casing *)
    let project_name := lower (project_name config) in
    let package_name := package_name config in
    let file_name := project_name ++ T "-version.ads" in
    let file_path := T "shared/src/" ++ file_name in
    print (T "Generating " ++ package_name ++ T ".Version package...") ;;
    do result <- run_command
                   [sys_executable; path_str gen_script; T "alire.toml";
                    file_path]
                   (project_root config) true;
    (if is_truthy result
     then print (T "  Generated " ++ file_path)
     else ret tt) ;;
    ret (is_not_None result).

(** [AdaReleaseAdapter.run_build] *)
Definition run_build (config : ReleaseConfig) : M bool :=
  print (T "Running Ada build...") ;;
  (* Fallback to alr build *)
  let fallback : M bool :=
    do result <- run_command [T "alr"; T "build"]
                             (project_root config) false;
    if is_truthy result then
      print (T "  Build successful") ;;
      ret true
    else
      print (T "  Build failed") ;;
      ret false in
  (* Try make first (if Makefile exists with build target) *)
  let makefile := project_root config // "Makefile" in
  do present <- path_exists makefile;
  if present then
    (* Run make clean first *)
    run_command [T "make"; T "clean"] (project_root config) true ;;
    (* Then build *)
    do result <- run_command [T "make"; T "build"]
                             (project_root config) false;
    if is_truthy result then
      print (T "  Build successful (via make)") ;;
      ret true
    else fallback
  else fallback.

(** [AdaReleaseAdapter.run_tests] *)
Definition run_tests (config : ReleaseConfig) : M bool :=
  print (T "Running Ada tests...") ;;
  (* No standard fallback for Ada - make test is the convention *)
  let fallback : M bool :=
    print (T "  No test target found") ;;
    ret true in
  let makefile := project_root config // "Makefile" in
  do present <- path_exists makefile;
  if present then
    do result <- run_command [T "make"; T "test"]
                             (project_root config) true;
    if is_not_None result then
      print (T "  All tests passed (via make)") ;;
      ret true
    else fallback
  else fallback.

(** [AdaReleaseAdapter.run_format] *)
Definition run_format (config : ReleaseConfig) : M bool :=
  print (T "Formatting Ada code...") ;;
  (* gnatpp is not always available *)
  let fallback : M bool :=
    print (T "  Format target not available (gnatpp/adafmt)") ;;
    ret true in
  let makefile := project_root config // "Makefile" in
  do present <- path_exists makefile;
  if present then
    do result <- run_command [T "make"; T "format"]
                             (project_root config) true;
    if is_not_None result then
      print (T "  Code formatted (via make)") ;;
      ret true
    else fallback
  else fallback.

(** [AdaReleaseAdapter.cleanup_temp_files] *)
Definition cleanup_temp_files (config : ReleaseConfig) : M bool :=
  print (T "Cleaning up temporary files...") ;;
  let done_ : M bool :=
    print (T "  Cleaned") ;;
    ret true in
  (* Fallback to make clean *)
  let via_make : M bool :=
    let makefile := project_root config // "Makefile" in
    do present <- path_exists makefile;
    if present then
      do result <- run_command [T "make"; T "clean"]
                               (project_root config) true;
      if is_not_None result then
        print (T "  Cleaned (via make)") ;;
        ret true
      else done_
    else done_ in
  (* look for the cleanup script *)
  let cleanup_script :=
    project_root config // "scripts" // "cleanup_temp_files.py" in
  do present <- path_exists cleanup_script;
  if present then
    do result <- run_command [sys_executable; path_str cleanup_script]
                             (project_root config) true;
    if is_not_None result then
      print (T "  Cleaned (via cleanup script)") ;;
      ret true
    else via_make
  else via_make.

End Commands.

(** ** Vocabulary of the statements *)

(** The opening part of a field: the key, [=] and the opening quote,
    with white space between them and, for the substitution pattern,
    before the key. *)
Definition is_opener (lead : bool) (key o : text) : Prop :=
  ∃ w1 w2 w3,
    forallb is_space w1 = true ∧ (lead = false → w1 = []) ∧
    forallb is_space w2 = true ∧ forallb is_space w3 = true ∧
    o = w1 ++ key ++ w2 ++ [equals_sign] ++ w3 ++ [dquote].

(** A quoted value: not empty, no quote inside. *)
Definition is_value (v : text) : Prop :=
  v ≠ [] ∧ forallb not_dquote v = true.

(** A version that the replacement template takes literally: no
    backslash. *)
Definition literal (v : text) : bool :=
  forallb (λ c, negb (c =? backslash)) v.

(** A version that, moreover, fits between quotes on one line: no
    backslash, no quote, no line feed. *)
Definition plain (v : text) : bool :=
  literal v && forallb not_dquote v && forallb (λ c, negb (c =? nl)) v.

(** The version field of a text: the first field that starts in the first
    column of a line, which is the one [update_version] looks up; when
    there is none, the first field that the substitution pattern matches,
    which may be indented. *)
Definition version_field (content : text) : option text :=
  match re_search version_pattern content with
  | Some m => Some (group1 m)
  | None => m_value <$> re_search version_sub_pattern content
  end.

(** What [re.sub] puts in place of a match for the template of a plain
    version: group 1, the version, group 2. *)
Definition put_value (v : text) (m : field_match) : text :=
  m_open m ++ v ++ [dquote].

(** The text in which every match of the substitution pattern has the
    value [v]. *)
Definition rewrite_versions (v : text) (s : text) : text :=
  sub_from (length s) version_sub_pattern (put_value v) true s.

(** A text cut at its version fields: before each field a gap, then the
    opening part, the value and the closing quote. *)
Record segment := Segment {
  gap : text;
  opener : text;
  value : text
}.

Definition seg_text (v : option text) (g : segment) : text :=
  gap g ++ opener g ++ default (value g) v ++ [dquote].

Definition plug (v : option text) (segs : list segment) (tail : text) : text :=
  (segs ≫= seg_text v) ++ tail.

(** Each segment holds a field of the shape the pattern asks for, and
    the field starts a line: its gap ends with a line feed, or it is empty
    at a position [bol] that starts a line itself. *)
Fixpoint segments_ok (bol : bool) (segs : list segment) : Prop :=
  match segs with
  | [] => True
  | g :: segs' =>
      is_opener true (T "version") (opener g) ∧ is_value (value g) ∧
      ((bol = true ∧ gap g = []) ∨ last (gap g) = Some nl) ∧
      segments_ok false segs'
  end.

(** The test of [update_version] for a version that is already
    correct. *)
Definition already_current (config : ReleaseConfig) (content : text) : bool :=
  match re_search version_pattern content with
  | Some m => bool_decide (group1 m = version config)
  | None => false
  end.

(** [p.exists()] returns False: stat on [p] finds nothing. *)
Definition absent {os : OS} (fs : filesys) (p : path) : Prop :=
  stat_fault p = None ∧ fs_exists fs p = false.

(** The files that the fallback of [sync_versions] works on: the entries
    named alire.toml below the project root, except the one directly in
    it. *)
Definition sync_target (config : ReleaseConfig) (fs : filesys) (p : path)
  : bool :=
  bool_decide (is_Some (fs !! p))
  && is_below (project_root config) p
  && bool_decide (path_name p = T "alire.toml")
  && negb (bool_decide (path_parent p = project_root config)).

Definition sync_warning (p : path) (e : exn) : text :=
  T "  Warning: Could not update " ++ path_str p ++ T ": " ++ exn_str e.

(** What the fallback does with one target: the entry [n] at [p] becomes
    [n'], and the lines [out] are printed.  A directory, a file that
    cannot be read or opened for writing and a replacement template that
    does not compile leave the entry alone with a warning; a file that
    the substitution does not change is left alone silently.  The other
    files are opened for writing: a new text that UTF-8 cannot encode
    leaves the file empty and a failing device leaves what it leaves,
    both with a warning; otherwise the file holds the result of the
    substitution. *)
Inductive synced {os : OS} (config : ReleaseConfig) (p : path) (n : option node)
  : option node → list text → Prop :=
| synced_directory :
    n = Some Directory →
    synced config p n n [sync_warning p (IOError (T "Is a directory") p)]
| synced_unreadable f :
    n = Some (Regular f) → readable f = false →
    synced config p n n [sync_warning p (IOError (T "cannot read") p)]
| synced_bad_template f e :
    n = Some (Regular f) → readable f = true →
    re_sub_version (version_template (version config))
      (universal_newlines (data f)) = Err e →
    synced config p n n [sync_warning p e]
| synced_unchanged f :
    n = Some (Regular f) → readable f = true →
    re_sub_version (version_template (version config))
      (universal_newlines (data f)) = Ok (universal_newlines (data f)) →
    synced config p n n []
| synced_unwritable f new_content :
    n = Some (Regular f) → readable f = true →
    re_sub_version (version_template (version config))
      (universal_newlines (data f)) = Ok new_content →
    new_content ≠ universal_newlines (data f) →
    writable f = false →
    synced config p n n [sync_warning p (IOError (T "Permission denied") p)]
| synced_unencodable f new_content :
    n = Some (Regular f) → readable f = true →
    re_sub_version (version_template (version config))
      (universal_newlines (data f)) = Ok new_content →
    new_content ≠ universal_newlines (data f) →
    writable f = true →
    encodable new_content = false →
    synced config p n
      (Some (Regular (File true true [])))
      [sync_warning p surrogates_not_allowed]
| synced_device f new_content e cut :
    n = Some (Regular f) → readable f = true →
    re_sub_version (version_template (version config))
      (universal_newlines (data f)) = Ok new_content →
    new_content ≠ universal_newlines (data f) →
    writable f = true →
    encodable new_content = true →
    write_fault p new_content = Some (e, cut) →
    synced config p n (Some (Regular cut)) [sync_warning p e]
| synced_updated f new_content :
    n = Some (Regular f) → readable f = true →
    re_sub_version (version_template (version config))
      (universal_newlines (data f)) = Ok new_content →
    new_content ≠ universal_newlines (data f) →
    writable f = true →
    encodable new_content = true →
    write_fault p new_content = None →
    synced config p n
      (Some (Regular (File true true new_content)))
      [T "  Updated " ++ rel_str (drop (length (project_root config)) p)].

(** Whether the position after [u] starts a line, when the position
    before [u] does so or not according to [bol]. *)
Definition bol_after (bol : bool) (u : text) : bool :=
  match last u with
  | Some c => c =? nl
  | None => bol
  end.

(** ** Sample projects *)

Definition quoted (s : string) : text := dquote :: T s ++ [dquote].

(** A line [key = Qvalue Q] of alire.toml. *)
Definition toml_line (key value : string) : text :=
  T key ++ T " = " ++ quoted value ++ [nl].

Definition demo_root : path := [T "home"; T "demo"].

Definition demo_config (v : string) : ReleaseConfig :=
  {| project_root := demo_root; version := T v; project_name := T "demo" |}.

Definition plain_file (content : text) : node :=
  Regular (File true true content).

(** The project directory with the entries [items], given by their paths
    relative to the project root. *)
Definition project (items : list (path * node)) : filesys :=
  list_to_map ((λ '(rel, n), (demo_root ++ rel, n)) <$> items)
  ∪ {[ [T "home"] := Directory; demo_root := Directory ]}.

Definition world_of (fs : filesys) : world := World fs [] [].

(** name = demo, version = 0.1.0 *)
Definition demo_toml : text :=
  toml_line "name" "demo" ++ toml_line "version" "0.1.0".

(** A second version field, in a table of its own. *)
Definition two_fields_toml : text :=
  toml_line "name" "demo" ++ toml_line "version" "0.1.0"
  ++ T "[metadata]" ++ [nl] ++ toml_line "version" "7".

(** The version field is indented, which TOML allows. *)
Definition indented_toml (v : string) : text :=
  toml_line "name" "demo" ++ T "  " ++ toml_line "version" v.

(** The same text as [demo_toml] with CR LF line ends. *)
Definition crlf_toml : text :=
  T "name = " ++ quoted "demo" ++ [cr; nl]
  ++ T "version = " ++ quoted "0.1.0" ++ [cr; nl].

(** A website field and no name field. *)
Definition nameless_toml : text :=
  toml_line "website" "https://example.org/demo.git".

(** No version field. *)
Definition versionless_toml : text := toml_line "name" "demo".

(** A project with three layers below the root; the alire.toml of the
    second one cannot be read. *)
Definition layered_project : filesys :=
  project [([T "alire.toml"], plain_file demo_toml);
           ([T "domain"], Directory);
           ([T "domain"; T "alire.toml"], plain_file demo_toml);
           ([T "application"], Directory);
           ([T "application"; T "alire.toml"],
            Regular (File false true demo_toml));
           ([T "api"], Directory);
           ([T "api"; T "alire.toml"], plain_file two_fields_toml)].

(** External commands that all fail and touch nothing. *)
Definition failing_commands (c : command) (fs : filesys)
  : option unit * filesys :=
  (None, fs).

(** ** Further vocabulary *)

(** The names that [detect] looks for below the project root. *)
Definition ada_name (name : text) : bool :=
  endswith name (T ".gpr") || endswith name (T ".ads")
  || endswith name (T ".adb").

(** An ASCII text: where [lower] and [capitalize] are [str.lower] and
    [str.capitalize]. *)
Definition is_ascii (s : text) : bool := forallb (λ c, c <? 128) s.

(** A text without carriage return: [read_text] gives it back as it was
    written. *)
Definition no_cr (s : text) : bool := forallb (λ c, negb (c =? cr)) s.

(** The first line that [sync_versions] prints. *)
Definition sync_header : text :=
  T "Syncing versions across all layer alire.toml files...".

(** Where a script of the release tooling is taken from: scripts/release
    when it is there, scripts otherwise. *)
Definition find_script (fs : filesys) (root : path) (name : text)
  : option path :=
  if fs_exists fs (child (root // "scripts" // "release") name)
  then Some (child (root // "scripts" // "release") name)
  else if fs_exists fs (child (root // "scripts") name)
       then Some (child (root // "scripts") name)
       else None.

Section Traces.
Context {cmd_result : Type}.
Variable execute : command → filesys → option cmd_result * filesys.

(** The results of the commands [cs] run one after the other, and the
    store that the last one leaves. *)
Fixpoint run_all (cs : list command) (fs : filesys)
  : list (option cmd_result) * filesys :=
  match cs with
  | [] => ([], fs)
  | c :: cs' =>
      let '(r, fs1) := execute c fs in
      let '(rs, fs2) := run_all cs' fs1 in
      (r :: rs, fs2)
  end.

(** Whether the computation [m] started in [w] returns or raises, it
    only adds lines to the output and changes the store only by the
    commands it runs, all of them in the directory [root]. *)
Definition commands_only (root : path) (m : M bool) (w : world) : Prop :=
  ∃ r w' cs extra,
    m w = (r, w') ∧
    invoked w' = invoked w ++ cs ∧
    fs w' = (run_all cs (fs w)).2 ∧
    Forall (λ c, cwd c = root) cs ∧
    stdout w' = stdout w ++ extra.

End Traces.

(** ** Further sample projects *)

(** A project with its release scripts under scripts, and one layer. *)
Definition scripted_project : filesys :=
  project [([T "alire.toml"], plain_file demo_toml);
           ([T "scripts"], Directory);
           ([T "scripts"; T "sync_versions.py"], plain_file []);
           ([T "scripts"; T "generate_version.py"], plain_file []);
           ([T "domain"], Directory);
           ([T "domain"; T "alire.toml"], plain_file demo_toml)].

(** External commands that come back with a result that counts as false
    and touch nothing. *)
Definition falsy_commands (c : command) (fs : filesys)
  : option bool * filesys :=
  (Some false, fs).

(** An operating system with the limit of Linux on the length of a
    path component, 255 bytes (the components here are ASCII): stat on a
    path with a longer component fails with ENAMETOOLONG. *)
Definition name_max : OS := {|
  stat_fault p :=
    if forallb (λ c, (length c <=? 255)%nat) p then None
    else Some (IOError (T "File name too long") p);
  write_fault _ _ := None
|}.

(** A project root with a component of 300 characters. *)
Definition long_root : path := [T "tmp"; replicate 300 97].

Definition long_root_config : ReleaseConfig :=
  {| project_root := long_root; version := T "0.2.0";
     project_name := T "demo" |}.

(** An operating system whose device is full: every write fails after
    the file was opened, and leaves it empty. *)
Definition full_disk : OS := {|
  stat_fault _ := None;
  write_fault p _ :=
    Some (IOError (T "No space left on device") p, File true true [])
|}.

(** * Properties *)

(** A statement that binds an operating system [os] holds for every
    one; the others are about [calm]. *)

(** Literals stay folded under [simpl]; [eval_T] spells them out. *)
Opaque T.

Ltac eval_T :=
  repeat match goal with
         | |- context [T ?s] =>
             let x := eval vm_compute in (T s) in change (T s) with x
         end.

(** ** Text and matching *)

Lemma span_spec (p : char → bool) (s : text) :
  ∀ a b, span p s = (a, b) →
    s = a ++ b ∧ forallb p a = true ∧ (∀ c b', b = c :: b' → p c = false).
Proof.
  induction s as [|c s IH]; simpl; intros a b H.
  - by simplify_eq.
  - destruct (p c) eqn:Hp.
    + destruct (span p s) as [a' b'] eqn:Hs. simplify_eq.
      destruct (IH _ _ eq_refl) as (-> & Ha & Hb).
      split_and!; [done| |done]. simpl. by rewrite Hp.
    + simplify_eq. split_and!; [done..|]. intros ? ? [= <- <-]. done.
Qed.

Lemma span_app_stop (p : char → bool) (a b : text) :
  forallb p a = true → (∀ c b', b = c :: b' → p c = false) →
  span p (a ++ b) = (a, b).
Proof.
  intros Ha Hb. induction a as [|c a IH]; simpl in *.
  - destruct b as [|c b]; [done|]. simpl. by rewrite (Hb c b).
  - apply andb_prop in Ha as [-> Ha]. by rewrite IH.
Qed.

Lemma strip_prefix_Some (lit s r : text) :
  strip_prefix lit s = Some r ↔ s = lit ++ r.
Proof.
  revert s. induction lit as [|a lit IH]; intros s; simpl.
  - split; congruence.
  - destruct s as [|c s]; [split; discriminate|].
    destruct (N.eqb_spec a c) as [->|Hne].
    + rewrite IH. split; congruence.
    + split; [discriminate|]. intros [= ? ?]. done.
Qed.

Lemma strip_prefix_app (lit r : text) : strip_prefix lit (lit ++ r) = Some r.
Proof. by apply strip_prefix_Some. Qed.

Lemma match_field_sound lead key s m :
  match_field lead key s = Some m →
  is_opener lead key (m_open m) ∧ is_value (m_value m) ∧
  s = m_open m ++ m_value m ++ dquote :: m_rest m.
Proof.
  unfold match_field. intros H.
  destruct (if lead then span is_space s else ([], s)) as [w1 s1] eqn:H1.
  destruct (strip_prefix key s1) as [s2|] eqn:H2; [|done].
  cbn [mbind option_bind] in H.
  destruct (span is_space s2) as [w2 s3] eqn:H3.
  destruct (strip_prefix [equals_sign] s3) as [s4|] eqn:H4; [|done].
  cbn [mbind option_bind] in H.
  destruct (span is_space s4) as [w3 s5] eqn:H5.
  destruct (strip_prefix [dquote] s5) as [s6|] eqn:H6; [|done].
  cbn [mbind option_bind] in H.
  destruct (span not_dquote s6) as [v s7] eqn:H7.
  destruct v as [|c v]; [done|].
  destruct (strip_prefix [dquote] s7) as [s8|] eqn:H8; [|done].
  cbn [mbind option_bind] in H.
  injection H as <-. simpl.
  apply strip_prefix_Some in H2, H4, H6, H8.
  apply span_spec in H3 as (E3 & F3 & _), H5 as (E5 & F5 & _),
      H7 as (E7 & F7 & _).
  assert (s = w1 ++ s1 ∧ forallb is_space w1 = true ∧ (lead = false → w1 = []))
    as (E1 & F1 & L1).
  { destruct lead.
    - apply span_spec in H1 as (? & ? & _). split_and!; [done..|]. intros [=].
    - by simplify_eq. }
  split; [by exists w1, w2, w3|]. split; [done|].
  subst. repeat (rewrite <- app_assoc; simpl). reflexivity.
Qed.

Lemma match_field_complete lead key o v rest :
  (∃ k key', key = k :: key' ∧ is_space k = false) →
  is_opener lead key o → is_value v →
  match_field lead key (o ++ v ++ dquote :: rest)
  = Some (FieldMatch o v rest).
Proof.
  intros (k & key' & Hkey & Hk) (w1 & w2 & w3 & F1 & L1 & F2 & F3 & ->) [Hv Fv].
  unfold match_field. rewrite <- !app_assoc.
  assert ((if lead then span is_space (w1 ++ key ++ w2 ++ [equals_sign] ++ w3
                                         ++ [dquote] ++ v ++ dquote :: rest)
           else ([], w1 ++ key ++ w2 ++ [equals_sign] ++ w3
                                         ++ [dquote] ++ v ++ dquote :: rest))
          = (w1, key ++ w2 ++ [equals_sign] ++ w3 ++ [dquote] ++ v
                 ++ dquote :: rest)) as ->.
  { destruct lead.
    - apply span_app_stop; [done|]. subst key. by intros ? ? [= <- _].
    - by rewrite L1. }
  rewrite strip_prefix_app. simpl.
  rewrite (span_app_stop is_space w2); [|done|by intros ? ? [= <- _]].
  simpl. rewrite ?N.eqb_refl.
  rewrite (span_app_stop is_space w3); [|done|by intros ? ? [= <- _]].
  simpl. rewrite ?N.eqb_refl.
  rewrite (span_app_stop not_dquote v); [|done|by intros ? ? [= <- _]].
  destruct v as [|c v]; [done|]. simpl. by rewrite ?N.eqb_refl.
Qed.

Lemma match_field_shorter lead key s m :
  match_field lead key s = Some m → (length (m_rest m) < length s)%nat.
Proof.
  intros (_ & _ & ->)%match_field_sound. rewrite !length_app. simpl. lia.
Qed.

Lemma version_key_head :
  ∃ k key', T "version" = k :: key' ∧ is_space k = false.
Proof. exists 118, (T "ersion"). by vm_compute. Qed.

(** A match of the lookup pattern is a match of the substitution
    pattern. *)
Lemma version_pattern_sub s m :
  version_pattern s = Some m → version_sub_pattern s = Some m.
Proof.
  intros H. destruct (match_field_sound _ _ _ _ H) as (Ho & Hv & ->).
  destruct m as [o v r]. simpl in *.
  apply (match_field_complete true); [apply version_key_head| |done].
  destruct Ho as (w1 & w2 & w3 & ? & ? & ? & ? & ->).
  exists w1, w2, w3. done.
Qed.

Lemma search_from_sub_None bol s :
  search_from version_sub_pattern bol s = None →
  search_from version_pattern bol s = None.
Proof.
  revert bol. induction s as [|c s IH]; intros bol; simpl.
  - destruct bol; [|done].
    destruct (version_sub_pattern []) eqn:E; [done|]. intros _.
    destruct (version_pattern []) eqn:E'; [|done].
    apply version_pattern_sub in E'. congruence.
  - destruct bol.
    + destruct (version_sub_pattern (c :: s)) eqn:E; [done|]. intros H.
      destruct (version_pattern (c :: s)) eqn:E'.
      * apply version_pattern_sub in E'. congruence.
      * by apply IH.
    + apply IH.
Qed.

(** The fuel of [sub_from]: the length of the text is enough. *)
Lemma sub_from_fuel lead key repl n1 n2 bol s :
  (length s ≤ n1)%nat → (length s ≤ n2)%nat →
  sub_from n1 (match_field lead key) repl bol s
  = sub_from n2 (match_field lead key) repl bol s.
Proof.
  revert n2 bol s. induction n1 as [|n1 IH]; intros n2 bol s H1 H2.
  - destruct s; [|simpl in H1; lia]. destruct n2; [done|]. simpl.
    destruct bol; [|done].
    destruct (match_field lead key []) eqn:E; [|done].
    apply match_field_shorter in E. simpl in E. lia.
  - destruct n2 as [|n2].
    + destruct s; [|simpl in H2; lia]. simpl.
      destruct bol; [|done].
      destruct (match_field lead key []) eqn:E; [|done].
      apply match_field_shorter in E. simpl in E. lia.
    + simpl. destruct (if bol then match_field lead key s else None) eqn:E.
      * f_equal. apply IH.
        all: assert (match_field lead key s = Some f)
               by (destruct bol; [done|discriminate]).
        all: match goal with H : match_field _ _ _ = Some _ |- _ =>
               apply match_field_shorter in H end; lia.
      * destruct s as [|c s]; [done|]. f_equal. simpl in *. apply IH; lia.
Qed.

Lemma sub_from_ext n pat r1 r2 bol s :
  (∀ m, r1 m = r2 m) → sub_from n pat r1 bol s = sub_from n pat r2 bol s.
Proof.
  intros Hr. revert bol s. induction n as [|n IH]; intros bol s; simpl; [done|].
  destruct (if bol then pat s else None).
  - by rewrite Hr, IH.
  - destruct s; [done|]. by rewrite IH.
Qed.

(** Without a match nothing is replaced. *)
Lemma sub_from_no_match n pat repl bol s :
  search_from pat bol s = None → sub_from n pat repl bol s = s.
Proof.
  revert bol s. induction n as [|n IH]; intros bol s; simpl; [done|].
  destruct s as [|c s]; simpl.
  - destruct (if bol then pat [] else None); done.
  - destruct (if bol then pat (c :: s) else None); [done|].
    intros H. by rewrite IH.
Qed.

(** ** The replacement template of a plain version *)


Lemma parse_template_nil fuel groups : parse_template fuel groups [] = Ok [].
Proof. by destruct fuel. Qed.

Lemma parse_template_literal v :
  literal v = true →
  ∀ fuel, (length v + 5 ≤ fuel)%nat →
  parse_template fuel 2 (v ++ T "\g<2>") = Ok ((Chr <$> v) ++ [Group 2]).
Proof.
  unfold literal. induction v as [|c v IH]; intros Hv fuel Hfuel.
  - destruct fuel as [|fuel]; [simpl in Hfuel; lia|].
    eval_T. cbn. by rewrite parse_template_nil.
  - simpl in Hv. apply andb_prop in Hv as [Hc Hv].
    destruct fuel as [|fuel]; [simpl in Hfuel; lia|].
    cbn [app parse_template]. rewrite Hc.
    rewrite IH; [done|done|simpl in Hfuel; lia].
Qed.

Lemma plain_literal v : plain v = true → literal v = true.
Proof. unfold plain. by intros [[? _]%andb_prop _]%andb_prop. Qed.

Lemma plain_no_dquote v : plain v = true → forallb not_dquote v = true.
Proof. unfold plain. by intros [[_ ?]%andb_prop _]%andb_prop. Qed.

Lemma plain_no_nl v :
  plain v = true → forallb (λ c, negb (c =? nl)) v = true.
Proof. unfold plain. by intros [_ ?]%andb_prop. Qed.

Lemma parse_version_template v :
  literal v = true →
  parse_template (length (version_template v)) 2 (version_template v)
  = Ok (Group 1 :: (Chr <$> v) ++ [Group 2]).
Proof.
  intros Hv. unfold version_template.
  rewrite !length_app. change (length (T "\g<1>")) with 5%nat.
  change (length (T "\g<2>")) with 5%nat.
  change (T "\g<1>" ++ v ++ T "\g<2>")
    with (backslash :: 103 :: 60 :: 49 :: 62 :: v ++ T "\g<2>").
  change (5 + (length v + 5))%nat with (S (4 + (length v + 5))).
  assert (length v + 5 ≤ 4 + (length v + 5))%nat as Hn by lia.
  revert Hn. generalize (4 + (length v + 5))%nat. intros n Hn.
  cbn -[T]. rewrite parse_template_literal; done.
Qed.

Lemma expand_chars v m tpl :
  expand ((Chr <$> v) ++ tpl) m = v ++ expand tpl m.
Proof.
  unfold expand. induction v as [|c v IH]; [done|]. simpl. by rewrite <- IH.
Qed.

Lemma expand_version_template v m :
  expand (Group 1 :: (Chr <$> v) ++ [Group 2]) m = put_value v m.
Proof.
  unfold put_value. change (Group 1 :: (Chr <$> v) ++ [Group 2])
    with ([Group 1] ++ (Chr <$> v) ++ [Group 2]).
  unfold expand at 1. rewrite flat_map_app.
  fold (expand ((Chr <$> v) ++ [Group 2]) m).
  rewrite expand_chars. unfold expand, group_text. simpl.
  by rewrite !app_nil_r.
Qed.

(** For a literal version, [re.sub] is [rewrite_versions]. *)
Lemma re_sub_version_literal v s :
  literal v = true →
  re_sub_version (version_template v) s = Ok (rewrite_versions v s).
Proof.
  intros Hv. unfold re_sub_version. rewrite parse_version_template by done.
  simpl. f_equal. apply sub_from_ext. apply expand_version_template.
Qed.

(** ** What the substitution does to a text *)

(** The scan cuts the text into segments and replaces the value of
    each. *)
Lemma sub_from_segments v n :
  ∀ bol s, (length s ≤ n)%nat →
  ∃ segs tail,
    s = plug None segs tail ∧
    sub_from n version_sub_pattern (put_value v) bol s
    = plug (Some v) segs tail ∧
    segments_ok bol segs.
Proof.
  induction n as [|n IH]; intros bol s Hn.
  - destruct s; [|simpl in Hn; lia]. by exists [], [].
  - simpl. destruct (if bol then version_sub_pattern s else None) as [m|] eqn:E.
    + assert (bol = true ∧ version_sub_pattern s = Some m) as [-> Hm]
        by (destruct bol; [done|discriminate]).
      pose proof (match_field_shorter _ _ _ _ Hm) as Hlen.
      destruct (match_field_sound _ _ _ _ Hm) as (Ho & Hv & Hs).
      destruct (IH false (m_rest m)) as (segs & tail & E1 & E2 & Hok); [lia|].
      exists (Segment [] (m_open m) (m_value m) :: segs), tail.
      split_and!.
      * rewrite Hs at 1. unfold plug. simpl. unfold seg_text. simpl.
        rewrite E1 at 1. unfold plug.
        by repeat (rewrite <- app_assoc; simpl).
      * rewrite E2. unfold plug, put_value. simpl. unfold seg_text. simpl.
        by repeat (rewrite <- app_assoc; simpl).
      * simpl. split_and!; [done|done|by left|done].
    + destruct s as [|c s].
      * by exists [], [].
      * destruct (IH (c =? nl) s) as (segs & tail & E1 & E2 & Hok);
          [simpl in Hn; lia|].
        destruct segs as [|g segs].
        -- exists [], (c :: tail). unfold plug in *. simpl in *.
           by rewrite E2, <- E1.
        -- exists (Segment (c :: gap g) (opener g) (value g) :: segs), tail.
           unfold plug in *. simpl in *. unfold seg_text in *. simpl in *.
           rewrite E2. rewrite E1 at 1.
           split_and!; [done|done| | | |]; try tauto.
           destruct Hok as (_ & _ & [[Hc ->]| Hl] & _); right.
           ++ apply N.eqb_eq in Hc. by subst.
           ++ destruct (gap g); [done|]. by rewrite last_cons, Hl.
Qed.

Lemma quote_split_inj (a b x y : text) :
  forallb not_dquote a = true → forallb not_dquote b = true →
  a ++ dquote :: x = b ++ dquote :: y → a = b ∧ x = y.
Proof.
  revert b. induction a as [|c a IH]; intros [|d b] Ha Hb; simpl in *.
  - by intros [= ->].
  - intros [= <- _]. done.
  - intros [= -> _]. done.
  - apply andb_prop in Ha as [_ Ha], Hb as [_ Hb].
    intros [= -> H]. by destruct (IH _ Ha Hb H) as [-> ->].
Qed.

(** Where the lookup pattern cannot match. *)
Lemma version_pattern_head c s :
  c ≠ 118 → version_pattern (c :: s) = None.
Proof.
  intros Hc. unfold version_pattern, match_field.
  change (T "version") with (118 :: T "ersion"). cbn [strip_prefix].
  destruct (N.eqb_spec 118 c); [by subst|done].
Qed.


Lemma search_skip_nonkey u t bol :
  Forall (λ c, c ≠ 118) u →
  search_from version_pattern bol (u ++ t)
  = search_from version_pattern (bol_after bol u) t.
Proof.
  intros Hu. revert bol. induction Hu as [|c u Hc Hu IH]; intros bol; [done|].
  simpl. rewrite version_pattern_head by done.
  replace (if bol then None else None) with (@None field_match)
    by (by destruct bol).
  rewrite IH. f_equal. unfold bol_after. destruct u as [|d u]; [done|].
  rewrite last_cons_cons. destruct (last (d :: u)) eqn:E; [done|].
  by apply last_None in E.
Qed.

Lemma search_skip_nobol pat u t :
  forallb (λ c, negb (c =? nl)) u = true →
  search_from pat false (u ++ t) = search_from pat false t.
Proof.
  induction u as [|c u IH]; [done|]. simpl. intros [Hc Hu]%andb_prop.
  apply negb_true_iff in Hc. rewrite Hc. by apply IH.
Qed.

Lemma is_space_not_v w : forallb is_space w = true → Forall (λ c, c ≠ 118) w.
Proof.
  rewrite forallb_forall, Forall_forall. intros H c Hc ->.
  apply list_elem_of_In, H in Hc. done.
Qed.

Lemma version_key_tail : Forall (λ c, c ≠ 118) (T "ersion").
Proof. eval_T. repeat constructor; done. Qed.

Lemma search_from_hit pat s m :
  pat s = Some m → search_from pat true s = Some m.
Proof. intros H. destruct s; simpl; by rewrite H. Qed.

(** The lookup over a field: it finds the field itself, or goes on after
    it, provided the value holds no line feed. *)
Lemma search_over_field bol o val rest mX :
  is_opener true (T "version") o → is_value val →
  forallb (λ c, negb (c =? nl)) val = true →
  search_from version_pattern bol (o ++ val ++ dquote :: rest) = Some mX →
  m_value mX = val ∨ search_from version_pattern false rest = Some mX.
Proof.
  intros (w1 & w2 & w3 & F1 & _ & F2 & F3 & ->) Hval Hnl.
  repeat (rewrite <- app_assoc; simpl).
  rewrite search_skip_nonkey by by apply is_space_not_v.
  set (b1 := bol_after bol w1). clearbody b1.
  destruct b1.
  - (* the key starts a line: the lookup matches here *)
    assert (version_pattern
              (T "version" ++ w2 ++ equals_sign :: w3 ++ dquote :: val
                 ++ dquote :: rest)
            = Some (FieldMatch
                      (T "version" ++ w2 ++ [equals_sign] ++ w3 ++ [dquote])
                      val rest)) as E.
    { rewrite <- (match_field_complete false (T "version") _ val rest);
        [|apply version_key_head| |done].
      - f_equal. by repeat (rewrite <- app_assoc; simpl).
      - exists [], w2, w3. done. }
    rewrite (search_from_hit _ _ _ E). intros [= <-]. by left.
  - (* the key does not start a line: nothing before the closing quote *)
    change (T "version") with (118 :: T "ersion"). simpl.
    replace (T "ersion" ++ w2 ++ equals_sign :: w3 ++ dquote :: val
               ++ dquote :: rest)
      with ((T "ersion" ++ w2 ++ equals_sign :: w3 ++ [dquote])
              ++ val ++ dquote :: rest)
      by (by repeat (rewrite <- app_assoc; simpl)).
    rewrite search_skip_nonkey.
    2:{ repeat (rewrite Forall_app || rewrite Forall_cons).
        repeat split;
          auto using version_key_tail, is_space_not_v, Forall_nil_2.
        all: done. }
    replace (bol_after false
               (T "ersion" ++ w2 ++ equals_sign :: w3 ++ [dquote]))
      with false.
    2:{ unfold bol_after.
        replace (T "ersion" ++ w2 ++ equals_sign :: w3 ++ [dquote])
          with ((T "ersion" ++ w2 ++ equals_sign :: w3) ++ [dquote])
          by (by repeat (rewrite <- app_assoc; simpl)).
        by rewrite last_snoc. }
    rewrite search_skip_nobol by done. simpl. by right.
Qed.

Lemma search_version_nil bol : search_from version_pattern bol [] = None.
Proof. by destruct bol; vm_compute. Qed.

(** When the lookup finds a value other than a plain [v], the
    substitution changes the text. *)
Lemma sub_from_changes v :
  plain v = true →
  ∀ n bol s mX, (length s ≤ n)%nat →
    search_from version_pattern bol s = Some mX → m_value mX ≠ v →
    sub_from n version_sub_pattern (put_value v) bol s ≠ s.
Proof.
  intros Hv. induction n as [|n IH]; intros bol s mX Hn Hm HX.
  - destruct s; [|simpl in Hn; lia]. by rewrite search_version_nil in Hm.
  - simpl. destruct (if bol then version_sub_pattern s else None) as [m|] eqn:E.
    + assert (bol = true ∧ version_sub_pattern s = Some m) as [-> Hsub]
        by (destruct bol; [done|discriminate]).
      pose proof (match_field_shorter _ _ _ _ Hsub) as Hlen.
      destruct (match_field_sound _ _ _ _ Hsub) as (Ho & Hval & Hs).
      unfold put_value. intros Heq. rewrite Hs in Heq at 1.
      repeat (rewrite <- app_assoc in Heq; simpl in Heq).
      apply app_inv_head in Heq.
      apply quote_split_inj in Heq as [Hvv Hrest];
        [|by apply plain_no_dquote|apply Hval].
      rewrite Hs in Hm.
      apply search_over_field in Hm as [Hm|Hm];
        [| |done|done|by rewrite <- Hvv; apply plain_no_nl].
      * congruence.
      * by apply (IH false (m_rest m) mX); [lia|..].
    + destruct s as [|c s].
      * by rewrite search_version_nil in Hm.
      * simpl in Hm.
        assert ((if bol then version_pattern (c :: s) else None) = None) as E'.
        { destruct bol; [|done].
          destruct (version_pattern (c :: s)) eqn:E'; [|done].
          apply version_pattern_sub in E'. congruence. }
        rewrite E' in Hm. intros [= Heq]. revert Heq.
        apply (IH _ _ mX); [simpl in Hn; lia|done..].
Qed.

Lemma search_sub_nil bol : search_from version_sub_pattern bol [] = None.
Proof. by destruct bol; vm_compute. Qed.

(** When the first match of the substitution pattern holds a value other
    than [v], the substitution changes the text. *)
Lemma sub_from_changes_first v :
  forallb not_dquote v = true →
  ∀ n bol s m, (length s ≤ n)%nat →
    search_from version_sub_pattern bol s = Some m → m_value m ≠ v →
    sub_from n version_sub_pattern (put_value v) bol s ≠ s.
Proof.
  intros Hv. induction n as [|n IH]; intros bol s m Hn Hm HX.
  - destruct s; [|simpl in Hn; lia]. by rewrite search_sub_nil in Hm.
  - destruct s as [|c s]; [by rewrite search_sub_nil in Hm|].
    simpl in *.
    destruct (if bol then version_sub_pattern (c :: s) else None)
      as [m'|] eqn:E.
    + injection Hm as ->.
      assert (version_sub_pattern (c :: s) = Some m) as Hsub
        by (destruct bol; [done|discriminate]).
      destruct (match_field_sound _ _ _ _ Hsub) as (Ho & Hval & Hs).
      unfold put_value. intros Heq. rewrite Hs in Heq at 1.
      repeat (rewrite <- app_assoc in Heq; simpl in Heq).
      apply app_inv_head in Heq.
      apply quote_split_inj in Heq as [Hvv _]; [done|done|apply Hval].
    + intros [= Heq]. revert Heq. apply (IH _ _ m); [lia|done..].
Qed.

Lemma rewrite_versions_changes v s m :
  plain v = true → re_search version_pattern s = Some m → group1 m ≠ v →
  rewrite_versions v s ≠ s.
Proof. intros. by eapply sub_from_changes. Qed.

Lemma rewrite_versions_changes_field v s x :
  plain v = true → version_field s = Some x → x ≠ v →
  rewrite_versions v s ≠ s.
Proof.
  intros Hv. unfold version_field.
  destruct (re_search version_pattern s) as [m|] eqn:E.
  - intros [= <-] ?. by eapply rewrite_versions_changes.
  - destruct (re_search version_sub_pattern s) as [m|] eqn:E'; [|done].
    intros [= <-] ?.
    by eapply sub_from_changes_first; [apply plain_no_dquote|..].
Qed.

Lemma rewrite_versions_segments v s :
  ∃ segs tail,
    s = plug None segs tail ∧ rewrite_versions v s = plug (Some v) segs tail ∧
    segments_ok true segs.
Proof. by apply sub_from_segments. Qed.

Lemma rewrite_versions_no_match v s :
  re_search version_sub_pattern s = None → rewrite_versions v s = s.
Proof. apply sub_from_no_match. Qed.

(** ** update_version *)

Ltac run_M :=
  unfold bind, try_except, path_exists, read_text, write_text, print, ret,
    lift; simpl.

Lemma fs_read_text_exists fs p content :
  fs_read_text fs p = Ok content → fs_exists fs p = true.
Proof. unfold fs_read_text, fs_exists. by destruct (fs !! p). Qed.

Lemma fs_read_text_file fs p content :
  fs_read_text fs p = Ok content →
  ∃ f, fs !! p = Some (Regular f) ∧ readable f = true ∧
       content = universal_newlines (data f).
Proof.
  unfold fs_read_text. destruct (fs !! p) as [[|f]|]; [done| |done].
  destruct (readable f) eqn:E; [|done]. intros [= <-]. by exists f.
Qed.

(** What holds of C2: when the first version field that starts in the
    first column of a line holds the target version, update_version
    returns True, prints that the file already has it, and writes
    nothing. *)
Lemma update_version_already_current config w content m :
  fs_read_text (fs w) (project_root config // "alire.toml") = Ok content →
  re_search version_pattern content = Some m →
  group1 m = version config →
  update_version config w
  = (Ok true,
     World (fs w)
           (stdout w ++ [T "  Root alire.toml already has version = "
                         ++ [dquote] ++ version config ++ [dquote]])
           (invoked w)).
Proof.
  intros Hread Hm Hv. unfold update_version. run_M.
  rewrite (fs_read_text_exists _ _ _ Hread). simpl.
  rewrite Hread, Hm. rewrite bool_decide_eq_true_2 by done. done.
Qed.

Lemma version_field_None content :
  version_field content = None ↔
  re_search version_sub_pattern content = None.
Proof.
  unfold version_field. split.
  - destruct (re_search version_pattern content); [done|].
    by destruct (re_search version_sub_pattern content).
  - intros H. unfold re_search in *.
    by rewrite (search_from_sub_None _ _ H), H.
Qed.

(** C3. When the root alire.toml can be read and has no version field
    (no line of it matches the version pattern, indented or not),
    update_version returns False, prints one diagnostic line and writes
    nothing. *)
Theorem update_version_no_field config w content :
  fs_read_text (fs w) (project_root config // "alire.toml") = Ok content →
  version_field content = None →
  ∃ line,
    update_version config w
    = (Ok false, World (fs w) (stdout w ++ [line]) (invoked w)) ∧
    (line = T "  Error: Version field not found in "
            ++ path_str (project_root config // "alire.toml")
     ∨ ∃ e, re_sub_version (version_template (version config)) content = Err e
            ∧ line = T "Error updating root alire.toml: " ++ exn_str e).
Proof.
  intros Hread Hnone%version_field_None. unfold update_version. run_M.
  rewrite (fs_read_text_exists _ _ _ Hread). simpl. rewrite Hread.
  unfold re_search in *. rewrite (search_from_sub_None true content Hnone).
  unfold re_sub_version.
  destruct (parse_template _ _ _) as [tpl|e]; simpl.
  - rewrite sub_from_no_match by done.
    rewrite bool_decide_eq_true_2 by done. eexists. split; [done|by left].
  - eexists. split; [done|]. right. by exists e.
Qed.

(** ** The version field after the substitution *)

Lemma first_quote (t : text) :
  forallb not_dquote t = true ∨
  ∃ a b, t = a ++ dquote :: b ∧ forallb not_dquote a = true.
Proof.
  induction t as [|c t IH]; [by left|].
  destruct (not_dquote c) eqn:Hc.
  - destruct IH as [IH|(a & b & -> & Ha)].
    + left. simpl. by rewrite Hc.
    + right. exists (c :: a), b. simpl. by rewrite Hc.
  - right. exists [], t. split; [|done]. simpl.
    unfold not_dquote in Hc. apply negb_false_iff, N.eqb_eq in Hc. by subst.
Qed.

Lemma space_not_dquote w :
  forallb is_space w = true → forallb not_dquote w = true.
Proof.
  rewrite !forallb_forall. intros H c Hc. apply H in Hc.
  unfold not_dquote. destruct (N.eqb_spec c dquote) as [->|]; done.
Qed.

Lemma opener_quote_free lead o :
  is_opener lead (T "version") o →
  ∃ o', o = o' ++ [dquote] ∧ forallb not_dquote o' = true.
Proof.
  intros (w1 & w2 & w3 & F1 & _ & F2 & F3 & ->).
  exists (w1 ++ T "version" ++ w2 ++ [equals_sign] ++ w3). split.
  - by repeat (rewrite <- app_assoc; simpl).
  - rewrite !forallb_app, (space_not_dquote w1), (space_not_dquote w2),
      (space_not_dquote w3) by done. by vm_compute.
Qed.

(** An attempt succeeds exactly on a text that begins with an opening
    part, a value and a quote. *)
Lemma match_field_iff lead s :
  match_field lead (T "version") s ≠ None ↔
  ∃ a u y, s = a ++ dquote :: u ++ dquote :: y ∧
           is_opener lead (T "version") (a ++ [dquote]) ∧ is_value u.
Proof.
  split.
  - destruct (match_field lead (T "version") s) as [m|] eqn:E; [|done].
    intros _. destruct (match_field_sound _ _ _ _ E) as (Ho & Hv & ->).
    destruct (opener_quote_free _ _ Ho) as (o' & Eo & _).
    exists o', (m_value m), (m_rest m). split_and!; [|by rewrite <- Eo|done].
    rewrite Eo. by repeat (rewrite <- app_assoc; simpl).
  - intros (a & u & y & -> & Ho & Hu).
    replace (a ++ dquote :: u ++ dquote :: y)
      with ((a ++ [dquote]) ++ u ++ dquote :: y)
      by (by repeat (rewrite <- app_assoc; simpl)).
    by rewrite (match_field_complete lead (T "version") _ u y)
      by (done || apply version_key_head).
Qed.

Lemma plug_cons v g segs tail o' :
  opener g = o' ++ [dquote] →
  plug v (g :: segs) tail
  = (gap g ++ o')
    ++ dquote :: default (value g) v ++ dquote :: plug v segs tail.
Proof.
  intros E. unfold plug. simpl. unfold seg_text. rewrite E.
  by repeat (rewrite <- app_assoc; simpl).
Qed.

(** Replacing the values of the fields of a text by a value does not
    make an attempt succeed that failed before. *)
Lemma match_field_plug lead v segs tail bol :
  is_value v → segments_ok bol segs →
  match_field lead (T "version") (plug (Some v) segs tail) ≠ None →
  match_field lead (T "version") (plug None segs tail) ≠ None.
Proof.
  intros Hv Hok. destruct segs as [|g segs]; [done|].
  destruct Hok as (Ho & Hg & _ & _).
  destruct (opener_quote_free _ _ Ho) as (o' & Eo & Fo).
  rewrite !(plug_cons _ g segs tail o') by done. simpl.
  set (restv := plug (Some v) segs tail).
  set (rest0 := plug None segs tail).
  generalize (gap g ++ o'). intros P.
  rewrite !match_field_iff. intros (a & u & y & E & Ha & Hu).
  destruct (opener_quote_free _ _ Ha) as (a' & Ea & Fa).
  apply app_inj_tail in Ea as [<- _].
  destruct (first_quote P) as [FP|(a1 & b1 & -> & Fa1)].
  - (* the first quote is the one that opens the field *)
    apply quote_split_inj in E as [<- E]; [|done..].
    exists P, (value g), rest0. done.
  - rewrite <- app_assoc in E. simpl in E.
    apply quote_split_inj in E as [<- E]; [|done..].
    destruct (first_quote b1) as [Fb|(a2 & b2 & -> & Fa2)].
    + apply quote_split_inj in E as [<- E]; [|done|apply Hu].
      exists a1, b1, (value g ++ dquote :: rest0).
      split_and!; [|done..]. by repeat (rewrite <- app_assoc; simpl).
    + rewrite <- app_assoc in E. simpl in E.
      apply quote_split_inj in E as [<- E]; [|done|apply Hu].
      exists a1, a2, (b2 ++ dquote :: value g ++ dquote :: rest0).
      split_and!; [|done..]. by repeat (rewrite <- app_assoc; simpl).
Qed.

Lemma put_value_app v m r :
  put_value v m ++ r = m_open m ++ v ++ dquote :: r.
Proof. unfold put_value. by repeat (rewrite <- app_assoc; simpl). Qed.

(** In the text that the substitution produces, every field that either
    pattern finds holds the new value. *)
Lemma search_rewritten_value lead v :
  is_value v → forallb (λ c, negb (c =? nl)) v = true →
  ∀ n bol s m, (length s ≤ n)%nat →
    search_from (match_field lead (T "version")) bol
      (sub_from n version_sub_pattern (put_value v) bol s) = Some m →
    m_value m = v.
Proof.
  intros Hv Hnl. induction n as [|n IH]; intros bol s m Hn.
  - destruct s; [|simpl in Hn; lia]. simpl.
    destruct bol; [|done].
    destruct (match_field lead (T "version") []) eqn:E; [|done].
    apply match_field_shorter in E. simpl in E. lia.
  - destruct (sub_from_segments v (S n) bol s Hn)
      as (segs & tail & E1 & E2 & Hok).
    revert E2. simpl.
    destruct (if bol then version_sub_pattern s else None) as [m0|] eqn:E.
    + intros _.
      assert (bol = true ∧ version_sub_pattern s = Some m0) as [-> Hsub]
        by (destruct bol; [done|discriminate]).
      pose proof (match_field_shorter _ _ _ _ Hsub) as Hlen.
      destruct (match_field_sound _ _ _ _ Hsub) as (Ho & _ & _).
      rewrite put_value_app.
      destruct lead.
      * rewrite (search_from_hit _ _
                   (FieldMatch (m_open m0) v
                      (sub_from n version_sub_pattern (put_value v) false
                         (m_rest m0)))).
        -- by intros [= <-].
        -- by apply match_field_complete; [apply version_key_head|..].
      * intros [H|H]%search_over_field; [done| |done..].
        apply (IH false (m_rest m0)); [lia|done].
    + destruct s as [|c s]; simpl.
      { intros _. destruct bol; [|done].
        destruct (match_field lead (T "version") []) eqn:E'; [|done].
        apply match_field_shorter in E'. simpl in E'. lia. }
      intros E2.
      assert ((if bol then match_field lead (T "version")
                              (c :: sub_from n version_sub_pattern
                                      (put_value v) (c =? nl) s)
               else None) = None) as ->.
      { destruct bol; [|done].
        destruct (match_field lead (T "version") (c :: sub_from _ _ _ _ _))
          eqn:E'; [|done]. exfalso.
        assert (match_field lead (T "version") (c :: s) ≠ None) as Hs.
        { rewrite E1. apply (match_field_plug lead v segs tail true);
            [done..|]. rewrite <- E2. by rewrite E'. }
        destruct lead; [done|].
        destruct (match_field false (T "version") (c :: s)) eqn:E''; [|done].
        apply version_pattern_sub in E''. congruence. }
      apply IH. simpl in Hn. lia.
Qed.

Lemma search_from_cons pat bol c s :
  search_from pat bol (c :: s)
  = match (if bol then pat (c :: s) else None) with
    | Some m => Some m
    | None => search_from pat (c =? nl) s
    end.
Proof. done. Qed.

(** When the text has a field, so has the text that the substitution
    produces. *)
Lemma search_rewritten_some v :
  is_value v →
  ∀ n bol s m, (length s ≤ n)%nat →
    search_from version_sub_pattern bol s = Some m →
    ∃ m',
      search_from version_sub_pattern bol
        (sub_from n version_sub_pattern (put_value v) bol s) = Some m'.
Proof.
  intros Hv. induction n as [|n IH]; intros bol s m Hn Hm.
  - destruct s; [|simpl in Hn; lia]. by rewrite search_sub_nil in Hm.
  - destruct s as [|c s]; [by rewrite search_sub_nil in Hm|].
    rewrite search_from_cons in Hm. cbn [sub_from].
    destruct (if bol then version_sub_pattern (c :: s) else None)
      as [m0|] eqn:E.
    + assert (bol = true ∧ version_sub_pattern (c :: s) = Some m0) as [-> Hsub]
        by (destruct bol; [done|discriminate]).
      destruct (match_field_sound _ _ _ _ Hsub) as (Ho & _ & _).
      eexists. apply search_from_hit. rewrite put_value_app.
      by apply match_field_complete; [apply version_key_head|..].
    + destruct (IH (c =? nl) s m) as [m' Hm']; [simpl in Hn; lia|done|].
      rewrite search_from_cons, Hm'. clear E.
      destruct (if bol then version_sub_pattern _ else None); by eexists.
Qed.

(** After the substitution the version field holds the new value. *)
Lemma version_field_rewritten v s x :
  is_value v → forallb (λ c, negb (c =? nl)) v = true →
  version_field s = Some x →
  version_field (rewrite_versions v s) = Some v.
Proof.
  intros Hv Hnl Hx. unfold version_field at 1.
  destruct (re_search version_pattern (rewrite_versions v s)) as [m|] eqn:E.
  - f_equal. by eapply (search_rewritten_value false).
  - destruct (re_search version_sub_pattern s) as [m|] eqn:Es.
    + destruct (search_rewritten_some v Hv (length s) true s m)
        as [m' Hm']; [done..|].
      unfold re_search, rewrite_versions. rewrite Hm'. simpl. f_equal.
      by eapply (search_rewritten_value true).
    + apply version_field_None in Es. congruence.
Qed.

(** C4.  update_version lets an error escape.  The call of exists on
    the root alire.toml comes before the try block: when stat fails
    there with an error that exists does not swallow, update_version
    raises that error; it has printed nothing and changed nothing. *)
Theorem update_version_propagates {os : OS} config w e :
  stat_fault (project_root config // "alire.toml") = Some e →
  update_version config w = (Err e, w).
Proof.
  intros He. unfold update_version, bind, path_exists. by rewrite He.
Qed.


(** ** Line ends and encoding *)

Lemma universal_newlines_cr d s :
  universal_newlines (cr :: d :: s)
  = if d =? nl then universal_newlines (d :: s)
    else nl :: universal_newlines (d :: s).
Proof. done. Qed.

Lemma universal_newlines_other c s :
  (c =? cr) = false → universal_newlines (c :: s) = c :: universal_newlines s.
Proof. intros H. simpl. by rewrite H. Qed.

Lemma universal_newlines_no_cr s : no_cr (universal_newlines s) = true.
Proof.
  unfold no_cr. remember (length s) as n eqn:Hn.
  assert (length s ≤ n)%nat as Hle by lia. clear Hn.
  revert s Hle. induction n as [|n IH]; intros s Hle.
  - by destruct s; [|simpl in Hle; lia].
  - destruct s as [|c s]; [done|]. simpl in Hle.
    destruct (N.eqb_spec c cr) as [->|Hc].
    + destruct s as [|d s]; [done|]. rewrite universal_newlines_cr.
      destruct (d =? nl).
      * apply IH. lia.
      * cbn [forallb]. rewrite IH by lia. done.
    + apply N.eqb_neq in Hc. rewrite universal_newlines_other by done.
      cbn [forallb]. rewrite Hc, IH by lia. done.
Qed.

Lemma universal_newlines_id s : no_cr s = true → universal_newlines s = s.
Proof.
  unfold no_cr. induction s as [|c s IH]; [done|]. simpl.
  intros [Hc Hs]%andb_prop. apply negb_true_iff in Hc. rewrite Hc.
  by rewrite IH.
Qed.

Lemma plug_step v g segs tail :
  plug v (g :: segs) tail = seg_text v g ++ plug v segs tail.
Proof. unfold plug. simpl. by rewrite <- app_assoc. Qed.

(** Putting in a value keeps what holds of every character of the text
    and of the value. *)
Lemma plug_forallb (P : char → bool) v segs tail :
  forallb P v = true → forallb P (plug None segs tail) = true →
  forallb P (plug (Some v) segs tail) = true.
Proof.
  intros Hv. induction segs as [|g segs IH]; [done|].
  rewrite !plug_step, !forallb_app, !andb_true_iff. intros [Hg Hrest].
  split; [|by apply IH].
  unfold seg_text in *. simpl in *.
  rewrite !forallb_app, !andb_true_iff in *. tauto.
Qed.

Lemma rewrite_versions_forallb (P : char → bool) v s :
  forallb P v = true → forallb P s = true →
  forallb P (rewrite_versions v s) = true.
Proof.
  intros Hv Hs.
  destruct (rewrite_versions_segments v s) as (segs & tail & E1 & E2 & _).
  rewrite E2. apply plug_forallb; [done|]. by rewrite <- E1.
Qed.

Lemma rewrite_versions_no_cr v s :
  no_cr v = true → no_cr s = true → no_cr (rewrite_versions v s) = true.
Proof. apply rewrite_versions_forallb. Qed.

Lemma rewrite_versions_encodable v s :
  encodable v = true → encodable s = true →
  encodable (rewrite_versions v s) = true.
Proof. apply rewrite_versions_forallb. Qed.


(** ** load_project_info *)

Lemma search_from_value pat bol s m :
  (∀ s m, pat s = Some m → is_value (m_value m)) →
  search_from pat bol s = Some m → m_value m ≠ [].
Proof.
  intros Hpat. revert bol. induction s as [|c s IH]; intros bol; simpl.
  - destruct bol; [|done]. destruct (pat []) eqn:E; [|done].
    intros [= <-]. by apply Hpat in E as [? _].
  - destruct bol.
    + destruct (pat (c :: s)) eqn:E.
      * intros [= <-]. by apply Hpat in E as [? _].
      * apply IH.
    + apply IH.
Qed.

(** C5, amended.  When alire.toml is absent, load_project_info returns
    the base name of the project root and an empty url.  When alire.toml
    can be read, it returns without raising: the name is the value of the
    name field, or the base name of the project root when no name field
    matches; the url is the value of the website field without a final
    ".git", or empty when no website field matches, whatever the name
    is.  The store and the output are untouched. *)
Theorem load_project_info_fallback config w :
  (fs_exists (fs w) (project_root config // "alire.toml") = false →
   load_project_info config w
   = (Ok (path_name (project_root config), []), w)) ∧
  (∀ content,
     fs_read_text (fs w) (project_root config // "alire.toml") = Ok content →
     load_project_info config w
     = (Ok (match re_search name_pattern content with
            | Some m => group1 m
            | None => path_name (project_root config)
            end,
            match re_search website_pattern content with
            | Some m => if endswith (group1 m) (T ".git")
                        then drop_last 4 (group1 m) else group1 m
            | None => []
            end), w)).
Proof.
  split.
  - intros Hex. unfold load_project_info. run_M. by rewrite Hex.
  - intros content Hread. unfold load_project_info. run_M.
    rewrite (fs_read_text_exists _ _ _ Hread). simpl. rewrite Hread.
    destruct (re_search name_pattern content) as [m|] eqn:Hn; [|done].
    apply search_from_value in Hn;
      [|unfold name_pattern; by intros ? ? (_ & ? & _)%match_field_sound].
    unfold group1. by destruct (m_value m).
Qed.

(** ** detect *)

Lemma elem_of_entries (fs : filesys) (p : path) :
  p ∈ entries fs ↔ is_Some (fs !! p).
Proof.
  unfold entries. rewrite list_elem_of_fmap. split.
  - intros ([q n] & -> & H). apply elem_of_map_to_list in H. by exists n.
  - intros [n H]. exists (p, n). split; [done|]. by apply elem_of_map_to_list.
Qed.

Lemma is_below_app (root rel : path) :
  rel ≠ [] → is_below root (root ++ rel) = true.
Proof.
  intros Hrel. unfold is_below. apply andb_true_intro. split.
  - apply bool_decide_eq_true. by rewrite take_app_length.
  - apply bool_decide_eq_true. rewrite length_app.
    destruct rel; [done|]. simpl. lia.
Qed.

Lemma is_below_inv (root p : path) :
  is_below root p = true → ∃ rel, rel ≠ [] ∧ p = root ++ rel.
Proof.
  unfold is_below. intros [H1 H2]%andb_prop.
  apply bool_decide_eq_true in H1, H2.
  exists (drop (length root) p). split.
  - intros E. apply (f_equal length) in E. rewrite length_drop in E.
    simpl in E. lia.
  - by rewrite <- H1 at 1; rewrite take_drop.
Qed.

Lemma filter_found {A} (f : A → bool) (l : list A) (x : A) :
  x ∈ l → f x = true → bool_decide (List.filter f l = []) = false.
Proof.
  intros Hx Hf. apply bool_decide_eq_false. intros E.
  assert (In x (List.filter f l)) as Hin
    by (apply filter_In; split; [by apply list_elem_of_In|done]).
  by rewrite E in Hin.
Qed.

Lemma filter_none {A} (f : A → bool) (l : list A) :
  (∀ x, x ∈ l → f x = false) → List.filter f l = [].
Proof.
  induction l as [|a l IH]; intros H; [done|]. simpl.
  rewrite (H a) by left. apply IH. intros x Hx. apply H. by right.
Qed.

Lemma glob_rec_star_found (fs : filesys) root dirs name suffix :
  is_Some (fs !! (root ++ dirs ++ [name])) → endswith name suffix = true →
  bool_decide (glob_rec_star fs root suffix = []) = false.
Proof.
  intros Hp Hs. apply (filter_found _ _ (root ++ dirs ++ [name])).
  - by apply elem_of_entries.
  - rewrite is_below_app by by destruct dirs.
    unfold path_name. by rewrite !app_assoc, last_last.
Qed.

(** C6. detect returns True when the project root holds an alire.toml,
    whatever else is there, and so when it holds nothing else; it returns
    True when a file whose name ends in .ads, .adb or .gpr lies anywhere
    below the root, under any number of directories; it returns False
    when nothing lies below the root. *)
Theorem detect_cases (fs : filesys) (root : path) :
  (fs_exists fs (root // "alire.toml") = true → detect fs root = true) ∧
  (∀ dirs name,
     is_Some (fs !! (root ++ dirs ++ [name])) →
     endswith name (T ".ads") || endswith name (T ".adb")
       || endswith name (T ".gpr") = true →
     detect fs root = true) ∧
  ((∀ p, is_below root p = true → fs !! p = None) → detect fs root = false).
Proof.
  split_and!.
  - intros H. unfold detect. by rewrite H.
  - intros dirs name Hp Hs. unfold detect.
    destruct (fs_exists fs (root // "alire.toml")); [done|].
    destruct (bool_decide (glob_star fs root (T ".gpr") = [])); [|done].
    simpl. apply orb_prop in Hs as [[Hs|Hs]%orb_prop|Hs].
    + rewrite (glob_rec_star_found fs root dirs name (T ".ads")) by done.
      simpl. by destruct (bool_decide _).
    + rewrite (glob_rec_star_found fs root dirs name (T ".adb")) by done.
      simpl. destruct (bool_decide _); [|done].
      by destruct (bool_decide _).
    + by rewrite (glob_rec_star_found fs root dirs name (T ".gpr")).
  - intros Hempty. unfold detect.
    assert (fs_exists fs (root // "alire.toml") = false) as ->.
    { unfold fs_exists, child. rewrite Hempty; [done|]. by apply is_below_app. }
    assert (∀ f, List.filter (λ p, is_below root p && f p) (entries fs) = [])
      as Hnone.
    { intros f. apply filter_none. intros p [n Hp]%elem_of_entries.
      destruct (is_below root p) eqn:E; [|done].
      rewrite Hempty in Hp; done. }
    unfold glob_star, glob_rec_star.
    rewrite (filter_none _ (entries fs)).
    2:{ intros p [n Hp]%elem_of_entries.
        destruct (is_below root p) eqn:E; [|done]. rewrite Hempty in Hp; done. }
    rewrite !Hnone. done.
Qed.

(** ** The Ada casing of the package name *)

Lemma lower_char_underscore c : lower_char c = underscore → c = underscore.
Proof.
  unfold lower_char, is_upper, underscore.
  destruct (65 <=? c) eqn:E1, (c <=? 90) eqn:E2; simpl; try done.
  apply N.leb_le in E1, E2. lia.
Qed.

Lemma lower_char_idem c : lower_char (lower_char c) = lower_char c.
Proof.
  unfold lower_char, is_upper.
  destruct (65 <=? c) eqn:E1, (c <=? 90) eqn:E2; simpl; rewrite ?E1, ?E2;
    simpl; try done.
  apply N.leb_le in E1, E2.
  destruct (65 <=? c + 32) eqn:E3, (c + 32 <=? 90) eqn:E4; simpl; try done.
  apply N.leb_le in E4. lia.
Qed.

Lemma upper_lower_char c : upper_char (lower_char c) = upper_char c.
Proof.
  unfold upper_char, lower_char, is_upper, is_lower.
  destruct (65 <=? c) eqn:E1, (c <=? 90) eqn:E2; simpl; try done.
  apply N.leb_le in E1, E2.
  replace (97 <=? c + 32) with true by (symmetry; apply N.leb_le; lia).
  replace (c + 32 <=? 122) with true by (symmetry; apply N.leb_le; lia).
  replace (97 <=? c) with false by (symmetry; apply N.leb_gt; lia).
  simpl. lia.
Qed.

Lemma lower_idem s : lower (lower s) = lower s.
Proof.
  unfold lower. rewrite <- list_fmap_compose. apply list_fmap_ext.
  intros _ c _. apply lower_char_idem.
Qed.

Lemma capitalize_lower s : capitalize (lower s) = capitalize s.
Proof.
  destruct s as [|c s]; [done|]. simpl.
  by rewrite upper_lower_char, lower_idem.
Qed.

Lemma lower_app a b : lower (a ++ b) = lower a ++ lower b.
Proof. apply fmap_app. Qed.

Lemma lower_join parts :
  lower (join [underscore] parts) = join [underscore] (lower <$> parts).
Proof.
  induction parts as [|w [|w' parts] IH]; [done..|].
  change (join [underscore] (w :: w' :: parts))
    with (w ++ [underscore] ++ join [underscore] (w' :: parts)).
  rewrite !lower_app, IH. done.
Qed.

Lemma split_app_sep w rest :
  underscore ∉ w →
  split underscore (w ++ underscore :: rest) = w :: split underscore rest.
Proof.
  induction w as [|c w IH]; intros Hw; simpl.
  - done.
  - apply not_elem_of_cons in Hw as [Hc Hw].
    destruct (N.eqb_spec c underscore); [done|]. by rewrite IH.
Qed.

Lemma split_no_sep w : underscore ∉ w → split underscore w = [w].
Proof.
  induction w as [|c w IH]; intros Hw; simpl; [done|].
  apply not_elem_of_cons in Hw as [Hc Hw].
  destruct (N.eqb_spec c underscore); [done|]. by rewrite IH.
Qed.

Lemma split_join parts :
  parts ≠ [] → Forall (λ w, underscore ∉ w) parts →
  split underscore (join [underscore] parts) = parts.
Proof.
  intros Hne Hparts. induction Hparts as [|w parts Hw Hparts IH]; [done|].
  destruct parts as [|w' parts].
  - by apply split_no_sep.
  - change (join [underscore] (w :: w' :: parts))
      with (w ++ underscore :: join [underscore] (w' :: parts)).
    rewrite split_app_sep by done. by rewrite IH.
Qed.

Lemma lower_no_underscore w : underscore ∉ w → underscore ∉ lower w.
Proof.
  unfold lower. intros Hw (c & Hc & Hin)%list_elem_of_fmap.
  symmetry in Hc. apply lower_char_underscore in Hc. by subst.
Qed.

(** C8. The package name of generate_version_file: foo_bar_baz gives
    Foo_Bar_Baz; a name that is hybrid_app_ada up to the case of its
    letters gives Hybrid_App_Ada; and for every name made of segments
    joined by underscores, each segment is capitalised and the
    underscores stay. *)
Theorem package_name_casing :
  (∀ root v,
     package_name {| project_root := root; version := v;
                     project_name := T "foo_bar_baz" |}
     = T "Foo_Bar_Baz") ∧
  (∀ config,
     lower (project_name config) = T "hybrid_app_ada" →
     package_name config = T "Hybrid_App_Ada") ∧
  (∀ config parts,
     parts ≠ [] → Forall (λ w, underscore ∉ w) parts →
     project_name config = join (T "_") parts →
     package_name config = join (T "_") (capitalize <$> parts)).
Proof.
  split_and!.
  - intros root v. by vm_compute.
  - intros config H. unfold package_name. by rewrite H.
  - intros config parts Hne Hparts Hname. unfold package_name.
    change (T "_") with [underscore] in *.
    assert (split underscore (lower (project_name config)) = lower <$> parts)
      as Hsplit.
    { rewrite Hname, lower_join. apply split_join.
      - by destruct parts.
      - apply Forall_fmap. eapply Forall_impl; [done|].
        intros w Hw. by apply lower_no_underscore. }
    assert (capitalize <$> (lower <$> parts) = capitalize <$> parts) as Hcap.
    { rewrite <- list_fmap_compose. apply list_fmap_ext.
      intros _ w _. apply capitalize_lower. }
    case_bool_decide as Hov.
    + rewrite Hov in Hsplit. rewrite <- Hcap, <- Hsplit. by vm_compute.
    + by rewrite Hsplit, Hcap.
Qed.

(** ** The steps that run external commands *)

Section CommandSteps.
Context {cmd_result : Type}.
Variable truthy : cmd_result → bool.
Variable execute : command → filesys → option cmd_result * filesys.
Variable sys_executable : text.

(** C9. When generate_version.py is at neither of its two places,
    generate_version_file returns True: it prints that it skips the
    step, runs no command and leaves the file store as it is. *)
Theorem generate_version_file_skips config w :
  fs_exists (fs w) (project_root config // "scripts" // "release"
                      // "generate_version.py") = false →
  fs_exists (fs w) (project_root config // "scripts"
                      // "generate_version.py") = false →
  generate_version_file truthy execute sys_executable config w
  = (Ok true,
     World (fs w)
           (stdout w ++ [skip_message])
           (invoked w)).
Proof.
  intros H1 H2. unfold generate_version_file. run_M.
  rewrite H1. simpl. by rewrite H2.
Qed.

(** C10. run_tests, run_format and cleanup_temp_files return True
    whatever the files are and whatever the commands they run return.
    run_build returns False when make build and alr build both come
    back without a true result. *)
Theorem runners_outcome config w :
  (∃ w', run_tests execute config w = (Ok true, w')) ∧
  (∃ w', run_format execute config w = (Ok true, w')) ∧
  (∃ w', cleanup_temp_files execute sys_executable config w
         = (Ok true, w')) ∧
  ((∀ fs, is_truthy truthy
            (execute (Command [T "make"; T "build"] (project_root config)
                              false) fs).1 = false) →
   (∀ fs, is_truthy truthy
            (execute (Command [T "alr"; T "build"] (project_root config)
                              false) fs).1 = false) →
   ∃ w', run_build truthy execute config w = (Ok false, w')).
Proof.
  split_and!.
  - unfold run_tests, run_command. run_M.
    destruct (fs_exists _ _); simpl; [|by eexists].
    destruct (execute _ _) as [[r|] fs']; simpl; by eexists.
  - unfold run_format, run_command. run_M.
    destruct (fs_exists _ _); simpl; [|by eexists].
    destruct (execute _ _) as [[r|] fs']; simpl; by eexists.
  - unfold cleanup_temp_files, run_command. run_M.
    destruct (fs_exists _ (_ // "cleanup_temp_files.py")); simpl.
    + destruct (execute _ _) as [[r|] fs']; simpl; [by eexists|].
      destruct (fs_exists _ _); simpl; [|by eexists].
      destruct (execute _ _) as [[r|] fs'']; simpl; by eexists.
    + destruct (fs_exists _ _); simpl; [|by eexists].
      destruct (execute _ _) as [[r|] fs'']; simpl; by eexists.
  - intros Hmake Halr. unfold run_build, run_command. run_M.
    destruct (fs_exists _ _); simpl.
    + destruct (execute _ _) as [r0 fs0]; simpl.
      specialize (Hmake fs0).
      destruct (execute _ fs0) as [r1 fs1]. cbn [fst] in Hmake.
      simpl. rewrite Hmake. simpl.
      specialize (Halr fs1).
      destruct (execute _ fs1) as [r2 fs2]. cbn [fst] in Halr.
      simpl. rewrite Halr. by eexists.
    + specialize (Halr (fs w)).
      destruct (execute _ (fs w)) as [r2 fs2]. cbn [fst] in Halr.
      simpl. rewrite Halr. by eexists.
Qed.

End CommandSteps.

(** ** sync_versions *)

Lemma sync_one_skip {os : OS} config p w :
  path_parent p = project_root config → sync_one config p w = (Ok tt, w).
Proof.
  intros H. unfold sync_one. by rewrite bool_decide_eq_true_2.
Qed.

Lemma relative_to_below root p :
  is_below root p = true → relative_to p root = Ok (drop (length root) p).
Proof.
  unfold is_below, relative_to. intros [H _]%andb_prop.
  apply bool_decide_eq_true in H. by rewrite bool_decide_eq_true_2.
Qed.

Lemma sync_one_run {os : OS} config p w :
  is_below (project_root config) p = true →
  path_parent p ≠ project_root config →
  is_Some (fs w !! p) →
  ∃ w' out,
    sync_one config p w = (Ok tt, w') ∧
    synced config p (fs w !! p) (fs w' !! p) out ∧
    (∀ q, q ≠ p → fs w' !! q = fs w !! q) ∧
    stdout w' = stdout w ++ out ∧
    invoked w' = invoked w.
Proof.
  intros Hbelow Hparent [n Hn].
  unfold sync_one. rewrite bool_decide_eq_false_2 by done.
  unfold sync_warning. run_M. unfold fs_read_text. rewrite Hn.
  destruct n as [|f].
  { eexists _, _. split; [done|]. simpl. rewrite Hn.
    split_and!; [by apply synced_directory|done..]. }
  destruct (readable f) eqn:Hr.
  2:{ eexists _, _. split; [done|]. simpl. rewrite Hn.
      split_and!; [by eapply synced_unreadable|done..]. }
  destruct (re_sub_version (version_template (version config))
              (universal_newlines (data f))) as [new|e] eqn:Hsub; simpl.
  2:{ eexists _, _. split; [done|]. simpl. rewrite Hn.
      split_and!; [by eapply synced_bad_template|done..]. }
  case_bool_decide as Hsame; simpl.
  { eexists _, []. split; [done|]. simpl. rewrite Hn, app_nil_r. subst new.
    split_and!; [by eapply synced_unchanged|done..]. }
  unfold fs_write_text, write_opened. rewrite Hn, ?Hr.
  destruct (writable f) eqn:Hw; simpl.
  2:{ eexists _, _. split; [done|]. simpl. rewrite Hn.
      split_and!; [by eapply synced_unwritable|done..]. }
  destruct (encodable new) eqn:Henc; simpl.
  2:{ eexists _, _. split; [done|]. simpl. rewrite lookup_insert_eq.
      split_and!; [by eapply synced_unencodable| |done..].
      intros q Hq. by rewrite lookup_insert_ne. }
  destruct (write_fault p new) as [[e cut]|] eqn:Hdev; simpl.
  { eexists _, _. split; [done|]. simpl. rewrite lookup_insert_eq.
    split_and!; [by eapply synced_device| |done..].
    intros q Hq. by rewrite lookup_insert_ne. }
  rewrite relative_to_below by done. simpl.
  eexists _, _. split; [done|]. simpl. rewrite lookup_insert_eq.
  split_and!; [by eapply synced_updated| |done..].
  intros q Hq. by rewrite lookup_insert_ne.
Qed.

(** The loop of the fallback over a list of distinct entries. *)
Lemma sync_loop {os : OS} config :
  ∀ (l : list path) w,
    NoDup l →
    (∀ p, p ∈ l → is_below (project_root config) p = true
                  ∧ is_Some (fs w !! p)) →
    ∃ w',
      for_each l (sync_one config) w = (Ok tt, w') ∧
      invoked w' = invoked w ∧
      (∃ extra, stdout w' = stdout w ++ extra) ∧
      (∀ q, q ∉ l → fs w' !! q = fs w !! q) ∧
      (∀ p, p ∈ l → path_parent p = project_root config →
            fs w' !! p = fs w !! p) ∧
      (∀ p, p ∈ l → path_parent p ≠ project_root config →
            ∃ out, synced config p (fs w !! p) (fs w' !! p) out
                   ∧ out ⊆ stdout w').
Proof.
  induction l as [|p l IH]; intros w Hnodup Hl.
  - exists w. split_and!; [done|done|by exists []; rewrite app_nil_r|done|..];
      intros p Hp; by apply elem_of_nil in Hp.
  - apply NoDup_cons in Hnodup as [Hp Hnodup].
    destruct (Hl p) as [Hbelow Hsome]; [by left|].
    assert (∃ w1,
              sync_one config p w = (Ok tt, w1) ∧
              invoked w1 = invoked w ∧
              (∃ out, stdout w1 = stdout w ++ out ∧
                 (path_parent p = project_root config →
                  fs w1 !! p = fs w !! p) ∧
                 (path_parent p ≠ project_root config →
                  synced config p (fs w !! p) (fs w1 !! p) out)) ∧
              (∀ q, q ≠ p → fs w1 !! q = fs w !! q))
      as (w1 & Hrun & Hinv & (out & Hout & Hskip & Hsync) & Hother).
    { destruct (decide (path_parent p = project_root config)) as [Hpar|Hpar].
      - exists w. rewrite sync_one_skip by done.
        split_and!; [done|done| |done]. exists []. by rewrite app_nil_r.
      - destruct (sync_one_run config p w) as (w1 & out & ? & ? & ? & ? & ?);
          [done..|].
        exists w1. split_and!; [done|done| |done]. by exists out. }
    destruct (IH w1) as (w' & Hloop & Hinv' & (extra & Hextra) & Hout' & Hskip'
                         & Hsync'); [done| |].
    { intros q Hq. destruct (Hl q) as [? ?]; [by right|]. split; [done|].
      rewrite Hother; [done|]. intros ->. done. }
    exists w'. split_and!.
    + simpl. unfold bind. by rewrite Hrun.
    + congruence.
    + exists (out ++ extra). by rewrite Hextra, Hout, app_assoc.
    + intros q Hq. apply not_elem_of_cons in Hq as [Hqp Hq].
      by rewrite Hout', Hother.
    + intros q [->|Hq]%elem_of_cons Hpar.
      * rewrite Hout' by done. by apply Hskip.
      * rewrite Hskip' by done. apply Hother. intros ->. done.
    + intros q [->|Hq]%elem_of_cons Hpar.
      * exists out. rewrite Hout' by done. split; [by apply Hsync|].
        rewrite Hextra, Hout. intros x Hx.
        apply elem_of_app. left. apply elem_of_app. by right.
      * destruct (Hsync' q Hq Hpar) as (out' & Hs & Hsub).
        exists out'. split; [|done]. rewrite <- Hother; [done|].
        intros ->. done.
Qed.

Lemma NoDup_list_filter {A} (f : A → bool) (l : list A) :
  NoDup l → NoDup (List.filter f l).
Proof.
  induction 1 as [|x l Hx Hl IH]; simpl; [constructor|].
  destruct (f x); [|done]. constructor; [|done].
  rewrite list_elem_of_In, filter_In, <- list_elem_of_In. tauto.
Qed.

Lemma NoDup_entries (fs : filesys) : NoDup (entries fs).
Proof. apply NoDup_fst_map_to_list. Qed.

Lemma elem_of_rglob (fs : filesys) root name p :
  p ∈ rglob fs root name ↔
  is_Some (fs !! p) ∧ is_below root p = true ∧ path_name p = name.
Proof.
  unfold rglob. rewrite list_elem_of_In, filter_In, <- list_elem_of_In.
  rewrite elem_of_entries, andb_true_iff, bool_decide_eq_true. tauto.
Qed.

Lemma sync_target_spec config fs p :
  sync_target config fs p = true ↔
  p ∈ rglob fs (project_root config) (T "alire.toml")
  ∧ path_parent p ≠ project_root config.
Proof.
  unfold sync_target. rewrite elem_of_rglob, !andb_true_iff, negb_true_iff.
  rewrite !bool_decide_eq_true, bool_decide_eq_false. tauto.
Qed.

Lemma universal_newlines_forallb (P : char → bool) s :
  P nl = true → forallb P s = true →
  forallb P (universal_newlines s) = true.
Proof.
  intros Hnl. remember (length s) as n eqn:Hn.
  assert (length s ≤ n)%nat as Hle by lia. clear Hn.
  revert s Hle. induction n as [|n IH]; intros s Hle.
  - by destruct s; [|simpl in Hle; lia].
  - destruct s as [|c s]; [done|]. simpl in Hle.
    cbn [forallb]. intros [Hc Hs]%andb_prop.
    destruct (N.eqb_spec c cr) as [->|Hcr].
    + destruct s as [|d s]; [by simpl; rewrite Hnl|].
      rewrite universal_newlines_cr.
      destruct (d =? nl).
      * apply IH; [lia|done].
      * cbn [forallb]. rewrite Hnl, IH; [done|lia|done].
    + apply N.eqb_neq in Hcr. rewrite universal_newlines_other by done.
      cbn [forallb]. rewrite Hc, IH; [done|lia|done].
Qed.

(** The loop of the fallback, when the script is not there. *)
Lemma sync_fallback_run {os : OS} {cmd_result : Type}
    (execute : command → filesys → option cmd_result * filesys)
    (sys_executable : text) config w w' :
  absent (fs w) (project_root config // "scripts" // "release"
                   // "sync_versions.py") →
  absent (fs w) (project_root config // "scripts" // "sync_versions.py") →
  for_each (rglob (fs w) (project_root config) (T "alire.toml"))
    (sync_one config)
    (World (fs w) (stdout w ++ [sync_header]) (invoked w)) = (Ok tt, w') →
  sync_versions execute sys_executable config w = (Ok true, w').
Proof.
  intros [S1 H1] [S2 H2] Hloop. unfold sync_versions. run_M.
  rewrite S1, H1. simpl. rewrite S2, H2. simpl.
  unfold do_rglob, bind. simpl.
  unfold sync_header in Hloop. by rewrite Hloop.
Qed.

Lemma sync_fallback_loop {os : OS} {cmd_result : Type}
    (execute : command → filesys → option cmd_result * filesys)
    (sys_executable : text) config w :
  absent (fs w) (project_root config // "scripts" // "release"
                   // "sync_versions.py") →
  absent (fs w) (project_root config // "scripts" // "sync_versions.py") →
  ∃ w',
    sync_versions execute sys_executable config w = (Ok true, w') ∧
    invoked w' = invoked w ∧
    (∀ p, sync_target config (fs w) p = false → fs w' !! p = fs w !! p) ∧
    (∀ p, sync_target config (fs w) p = true →
          ∃ out, synced config p (fs w !! p) (fs w' !! p) out
                 ∧ out ⊆ stdout w').
Proof.
  intros H1 H2.
  destruct (sync_loop config
              (rglob (fs w) (project_root config) (T "alire.toml"))
              (World (fs w) (stdout w ++ [sync_header]) (invoked w)))
    as (w' & Hloop & Hinv & _ & Hout & Hskip & Hsync).
  { apply NoDup_list_filter, NoDup_entries. }
  { intros p (? & ? & _)%elem_of_rglob. done. }
  exists w'. split_and!.
  - by apply sync_fallback_run.
  - done.
  - intros p Hp. simpl in *.
    destruct (decide (p ∈ rglob (fs w) (project_root config) (T "alire.toml")))
      as [Hin|Hin].
    + apply Hskip; [done|].
      destruct (decide (path_parent p = project_root config)); [done|].
      assert (sync_target config (fs w) p = true)
        by (by apply sync_target_spec). congruence.
    + by apply Hout.
  - intros p [Hin Hpar]%sync_target_spec. by apply Hsync.
Qed.

(** A target that can be read and written, for a version that is
    literal, without carriage return and encodable: treated, it reads as
    the text with the version put into every field. *)
Lemma synced_rewritten {os : OS} config p f n' out :
  literal (version config) = true → no_cr (version config) = true →
  encodable (version config) = true →
  readable f = true → writable f = true → encodable (data f) = true →
  write_fault p (rewrite_versions (version config)
                   (universal_newlines (data f))) = None →
  synced config p (Some (Regular f)) n' out →
  ∃ f', n' = Some (Regular f') ∧ readable f' = true ∧
        universal_newlines (data f')
        = rewrite_versions (version config) (universal_newlines (data f)).
Proof.
  intros Hlit Hcr Henc Hr Hw Hdata Hdev Hs.
  assert (encodable (rewrite_versions (version config)
                       (universal_newlines (data f))) = true) as Henc'.
  { apply rewrite_versions_encodable; [done|].
    by apply universal_newlines_forallb. }
  assert (no_cr (rewrite_versions (version config)
                   (universal_newlines (data f))) = true) as Hcr'.
  { apply rewrite_versions_no_cr; [done|]. apply universal_newlines_no_cr. }
  inversion Hs as [Hn|g Hn Hg|g e Hn Hg He|g Hn Hg He|g new Hn Hg He Hne Hg'
                  |g new Hn Hg He Hne Hg' Hgenc
                  |g new e cut Hn Hg He Hne Hg' Hgenc Hgdev
                  |g new Hn Hg He Hne Hg' Hgenc Hgdev];
    try done; injection Hn as <-; try congruence;
    rewrite re_sub_version_literal in He by done; try done.
  - exists f. split_and!; [done|done|congruence].
  - congruence.
  - congruence.
  - exists (File true true new). split_and!; [done|done|]. simpl.
    injection He as <-. by apply universal_newlines_id.
Qed.

(** C7.  When exists finds sync_versions.py at neither of its two
    places, sync_versions runs no command and returns True.  Every
    alire.toml below the project root that is not directly in it is
    treated on its own, and a failure at one file does not keep the
    others from being treated: a file that cannot be read or opened for
    writing, a substitution that raises and a write that fails give a
    warning line (the failed write leaves the file cut); a file that the
    substitution does not change is left alone; any other file is
    written with the result of the substitution.  No other entry of the
    store changes, the root alire.toml included.

    For a version that is plain (no backslash, quote or line feed), not
    empty, without carriage return and encodable, every target that can
    be read and written reads afterwards as the text it held with the
    version in every field that the substitution pattern matches; when
    it had a version field, its version field is the version. *)
Theorem sync_versions_fallback {os : OS} {cmd_result : Type}
    (execute : command → filesys → option cmd_result * filesys)
    (sys_executable : text) config w :
  absent (fs w) (project_root config // "scripts" // "release"
                   // "sync_versions.py") →
  absent (fs w) (project_root config // "scripts" // "sync_versions.py") →
  ∃ w',
    sync_versions execute sys_executable config w = (Ok true, w') ∧
    invoked w' = invoked w ∧
    (∀ p, sync_target config (fs w) p = false → fs w' !! p = fs w !! p) ∧
    (∀ p, sync_target config (fs w) p = true →
          ∃ out, synced config p (fs w !! p) (fs w' !! p) out
                 ∧ out ⊆ stdout w') ∧
    (plain (version config) = true → version config ≠ [] →
     no_cr (version config) = true → encodable (version config) = true →
     ∀ p f,
       sync_target config (fs w) p = true →
       fs w !! p = Some (Regular f) →
       readable f = true → writable f = true → encodable (data f) = true →
       write_fault p (rewrite_versions (version config)
                        (universal_newlines (data f))) = None →
       ∃ segs tail,
         segments_ok true segs ∧
         universal_newlines (data f) = plug None segs tail ∧
         fs_read_text (fs w') p
         = Ok (plug (Some (version config)) segs tail) ∧
         (is_Some (version_field (universal_newlines (data f))) →
          version_field (plug (Some (version config)) segs tail)
          = Some (version config))).
Proof.
  intros H1 H2.
  destruct (sync_fallback_loop execute sys_executable config w H1 H2)
    as (w' & Hrun & Hinv & Hkeep & Hsync).
  exists w'. split_and!; [done..|].
  intros Hplain Hne Hcr Henc p f Hp Hf Hr Hw Hdata Hdev.
  destruct (Hsync p Hp) as (out & Hs & _). rewrite Hf in Hs.
  destruct (synced_rewritten config p f _ out (plain_literal _ Hplain)
              Hcr Henc Hr Hw Hdata Hdev Hs) as (f' & Hf' & Hr' & Hdata').
  destruct (rewrite_versions_segments (version config)
              (universal_newlines (data f))) as (segs & tail & E1 & E2 & Hok).
  exists segs, tail. split_and!; [done|done| |].
  - unfold fs_read_text. rewrite Hf', Hr', Hdata'. by rewrite E2.
  - intros [x Hx]. rewrite <- E2.
    eapply version_field_rewritten; [|by apply plain_no_nl|done].
    split; [done|by apply plain_no_dquote].
Qed.

(** ** The theorems at work on the sample projects *)



(** The text is written as it was read: a file with CR LF line ends
    comes back with LF line ends. *)
Example update_version_crlf :
  let w := world_of (project [([T "alire.toml"], plain_file crlf_toml)]) in
  (update_version (demo_config "0.2.0") w).1 = Ok true ∧
  fs (update_version (demo_config "0.2.0") w).2 !! (demo_root // "alire.toml")
  = Some (plain_file (toml_line "name" "demo" ++ toml_line "version" "0.2.0")).
Proof. vm_compute. split; reflexivity. Qed.

(** C2 fails on an indented version field: the file already holds the
    target version, and update_version reports that it found no version
    field and returns False. *)
Lemma update_version_indented_current :
  let w := world_of (project [([T "alire.toml"],
                               plain_file (indented_toml "0.2.0"))]) in
  version_field (indented_toml "0.2.0") = Some (version (demo_config "0.2.0")) ∧
  update_version (demo_config "0.2.0") w
  = (Ok false,
     World (fs w)
           [T "  Error: Version field not found in /home/demo/alire.toml"]
           []).
Proof. vm_compute. split; reflexivity. Qed.

(** The same defect seen as two calls in a row: the first one updates the
    indented field and returns True, the second one, on the file the
    first one wrote, returns False. *)
Lemma update_version_twice_indented :
  let w := world_of (project [([T "alire.toml"],
                               plain_file (indented_toml "0.1.0"))]) in
  let w1 := World (project [([T "alire.toml"],
                             plain_file (indented_toml "0.2.0"))])
                  [T "  Updated root alire.toml: version = "
                   ++ quoted "0.2.0"] [] in
  update_version (demo_config "0.2.0") w = (Ok true, w1) ∧
  update_version (demo_config "0.2.0") w1
  = (Ok false,
     World (fs w1)
           (stdout w1
            ++ [T "  Error: Version field not found in /home/demo/alire.toml"])
           []).
Proof. vm_compute. split; reflexivity. Qed.

Lemma update_version_no_field_witness :
  version_field versionless_toml = None ∧
  ∃ line,
    update_version (demo_config "0.2.0")
      (world_of (project [([T "alire.toml"], plain_file versionless_toml)]))
    = (Ok false,
       World (project [([T "alire.toml"], plain_file versionless_toml)])
             [line] []).
Proof.
  split; [by vm_compute|].
  destruct (update_version_no_field (demo_config "0.2.0")
              (world_of (project [([T "alire.toml"],
                                   plain_file versionless_toml)]))
              versionless_toml) as (line & H & _); [by vm_compute..|].
  by exists line.
Defined.

Lemma update_version_propagates_witness :
  update_version (os := name_max) long_root_config (world_of (project []))
  = (Err (IOError (T "File name too long") (long_root // "alire.toml")),
     world_of (project [])).
Proof.
  apply (update_version_propagates (os := name_max) long_root_config
           (world_of (project []))).
  by vm_compute.
Defined.

Lemma load_project_info_fallback_witness :
  load_project_info (demo_config "0.2.0") (world_of (project []))
  = (Ok (T "demo", []), world_of (project [])) ∧
  load_project_info (demo_config "0.2.0")
    (world_of (project [([T "alire.toml"], plain_file nameless_toml)]))
  = (Ok (T "demo", T "https://example.org/demo"),
     world_of (project [([T "alire.toml"], plain_file nameless_toml)])).
Proof.
  split.
  - apply (proj1 (load_project_info_fallback (demo_config "0.2.0")
                    (world_of (project [])))).
    by vm_compute.
  - rewrite (proj2 (load_project_info_fallback (demo_config "0.2.0")
                      (world_of (project [([T "alire.toml"],
                                           plain_file nameless_toml)])))
               nameless_toml); by vm_compute.
Defined.

(** C5 as stated fails: the name field of this alire.toml cannot be
    parsed, and the url that load_project_info returns is not empty. *)
Lemma load_project_info_url_counterexample :
  let w := world_of (project [([T "alire.toml"], plain_file nameless_toml)]) in
  re_search name_pattern nameless_toml = None ∧
  load_project_info (demo_config "0.2.0") w
  = (Ok (path_name demo_root, T "https://example.org/demo"), w) ∧
  T "https://example.org/demo" ≠ [].
Proof. vm_compute. split_and!; [reflexivity..|discriminate]. Qed.

(** A read error is not caught: with a directory in the place of
    alire.toml, load_project_info raises. *)
Lemma load_project_info_raises_on_directory :
  let w := world_of (project [([T "alire.toml"], Directory)]) in
  load_project_info (demo_config "0.2.0") w
  = (Err (IOError (T "Is a directory") (demo_root // "alire.toml")), w).
Proof. vm_compute. reflexivity. Qed.

Lemma project_empty_below p :
  is_below demo_root p = true → project [] !! p = None.
Proof.
  intros (rel & Hrel & ->)%is_below_inv. unfold project. simpl.
  destruct rel as [|r rel]; [done|].
  rewrite (left_id_L ∅ (∪)). apply lookup_insert_None. split.
  - apply lookup_singleton_None. intros E. apply (f_equal length) in E.
    unfold demo_root in E. simpl in E. lia.
  - intros E. apply (f_equal length) in E. simpl in E. lia.
Qed.

Lemma detect_cases_witness :
  detect (project [([T "alire.toml"], plain_file demo_toml)]) demo_root = true ∧
  detect (project [([T "src"], Directory);
                   ([T "src"; T "core"], Directory);
                   ([T "src"; T "core"; T "engine.adb"], plain_file [])])
         demo_root = true ∧
  detect (project []) demo_root = false.
Proof.
  split_and!.
  - apply (proj1 (detect_cases _ demo_root)). by vm_compute.
  - apply (proj1 (proj2 (detect_cases _ demo_root))
             [T "src"; T "core"] (T "engine.adb")).
    + vm_compute. by eexists.
    + by vm_compute.
  - apply (proj2 (proj2 (detect_cases _ demo_root))).
    apply project_empty_below.
Defined.

Lemma sync_versions_fallback_witness :
  ∃ w',
    sync_versions failing_commands (T "python3") (demo_config "0.2.0")
      (world_of layered_project) = (Ok true, w') ∧
    invoked w' = [] ∧
    fs w' !! (demo_root // "alire.toml") = Some (plain_file demo_toml) ∧
    (∃ new_content,
       fs_read_text (fs w') (demo_root // "api" // "alire.toml")
       = Ok new_content ∧
       version_field new_content = Some (T "0.2.0")) ∧
    ∃ out,
      synced (demo_config "0.2.0") (demo_root // "application" // "alire.toml")
        (Some (Regular (File false true demo_toml)))
        (fs w' !! (demo_root // "application" // "alire.toml")) out.
Proof.
  destruct (sync_versions_fallback failing_commands (T "python3")
              (demo_config "0.2.0") (world_of layered_project))
    as (w' & Hrun & Hinv & Hother & Htarget & Hfield); [by vm_compute..|].
  exists w'. split_and!; [done|done| | |].
  - rewrite Hother; by vm_compute.
  - edestruct (Hfield) with (p := demo_root // "api" // "alire.toml")
                            (f := File true true two_fields_toml)
      as (segs & tail & _ & _ & Hread & Hv); [by vm_compute..|].
    eexists. split; [exact Hread|]. apply Hv. vm_compute. by eexists.
  - destruct (Htarget (demo_root // "application" // "alire.toml"))
      as (out & H & _); [by vm_compute|].
    by exists out.
Defined.

(** The fallback on the layered project: two layers are updated, the
    one that cannot be read gets a warning and does not stop the loop,
    the root alire.toml is left alone. *)
Example sync_versions_layers :
  let r := sync_versions failing_commands (T "python3") (demo_config "0.2.0")
             (world_of layered_project) in
  r.1 = Ok true ∧
  stdout r.2
    = [T "Syncing versions across all layer alire.toml files...";
       T "  Updated domain/alire.toml";
       sync_warning (demo_root // "application" // "alire.toml")
         (IOError (T "cannot read")
            (demo_root // "application" // "alire.toml"));
       T "  Updated api/alire.toml"] ∧
  fs r.2 !! (demo_root // "alire.toml") = Some (plain_file demo_toml).
Proof. vm_compute. split_and!; reflexivity. Qed.

Lemma package_name_casing_witness :
  package_name {| project_root := demo_root; version := T "0.2.0";
                  project_name := T "Hybrid_APP_ada" |}
  = T "Hybrid_App_Ada" ∧
  package_name {| project_root := demo_root; version := T "0.2.0";
                  project_name := T "release_TOOL_v2" |}
  = T "Release_Tool_V2".
Proof.
  split.
  - apply (proj1 (proj2 package_name_casing)). by vm_compute.
  - apply (proj2 (proj2 package_name_casing) _
             [T "release"; T "TOOL"; T "v2"]).
    + done.
    + repeat (apply Forall_cons_2;
                [apply (bool_decide_unpack _); by vm_compute|]).
      apply Forall_nil_2.
    + by vm_compute.
Defined.

Lemma generate_version_file_skips_witness :
  generate_version_file (λ _ : unit, true) failing_commands (T "python3")
    (demo_config "0.2.0")
    (world_of (project [([T "alire.toml"], plain_file demo_toml)]))
  = (Ok true,
     World (project [([T "alire.toml"], plain_file demo_toml)])
           [skip_message]
           []).
Proof.
  apply (generate_version_file_skips (λ _ : unit, true) failing_commands
           (T "python3") (demo_config "0.2.0")
           (world_of (project [([T "alire.toml"], plain_file demo_toml)])));
    by vm_compute.
Defined.

Lemma runners_outcome_witness :
  ∃ w',
    run_build (λ _ : unit, true) failing_commands (demo_config "0.2.0")
      (world_of (project [([T "Makefile"], plain_file [])]))
    = (Ok false, w').
Proof.
  apply (proj2 (proj2 (proj2
           (runners_outcome (λ _ : unit, true) failing_commands (T "python3")
              (demo_config "0.2.0")
              (world_of (project [([T "Makefile"], plain_file [])]))))));
    by intros fs.
Defined.

(** * Further properties of the adapter *)

(** ** detect *)

Lemma filter_some {A} (f : A → bool) (l : list A) :
  bool_decide (List.filter f l = []) = false → ∃ x, x ∈ l ∧ f x = true.
Proof.
  intros H%bool_decide_eq_false.
  destruct (List.filter f l) as [|x l'] eqn:E; [done|].
  assert (In x (List.filter f l)) as Hin by (rewrite E; by left).
  apply filter_In in Hin as [Hin Hf]. exists x. by rewrite list_elem_of_In.
Qed.

Lemma glob_rec_star_entry (fs : filesys) root suffix p :
  p ∈ entries fs → is_below root p = true →
  endswith (path_name p) suffix = true →
  bool_decide (glob_rec_star fs root suffix = []) = false.
Proof.
  intros Hp Hb He. apply (filter_found _ _ p Hp). by rewrite Hb, He.
Qed.

(** X1. detect returns True exactly when the project root holds an
    alire.toml or some entry below the root, at any depth, has a name
    that ends in .gpr, .ads or .adb.  An alire.toml deeper in the tree
    does not count. *)
Theorem detect_iff (fs : filesys) (root : path) :
  detect fs root = true ↔
  fs_exists fs (root // "alire.toml") = true ∨
  ∃ p, is_Some (fs !! p) ∧ is_below root p = true
       ∧ ada_name (path_name p) = true.
Proof.
  unfold detect, ada_name. split.
  - destruct (fs_exists fs (root // "alire.toml")); [by left|]. intros H.
    right.
    destruct (bool_decide (glob_star fs root (T ".gpr") = [])) eqn:E1.
    2:{ apply filter_some in E1 as (p & Hp & Hf).
        apply andb_prop in Hf as [[Hb _]%andb_prop He].
        exists p. rewrite <- elem_of_entries, He. done. }
    destruct (bool_decide (glob_rec_star fs root (T ".gpr") = [])) eqn:E2.
    2:{ apply filter_some in E2 as (p & Hp & [Hb He]%andb_prop).
        exists p. rewrite <- elem_of_entries, He. done. }
    destruct (bool_decide (glob_rec_star fs root (T ".ads") = [])) eqn:E3.
    2:{ apply filter_some in E3 as (p & Hp & [Hb He]%andb_prop).
        exists p. rewrite <- elem_of_entries, He, orb_true_r. done. }
    destruct (bool_decide (glob_rec_star fs root (T ".adb") = [])) eqn:E4.
    2:{ apply filter_some in E4 as (p & Hp & [Hb He]%andb_prop).
        exists p. rewrite <- elem_of_entries, He, orb_true_r. done. }
    done.
  - intros [->|(p & Hp & Hb & He)]; [done|].
    destruct (fs_exists fs (root // "alire.toml")); [done|].
    destruct (bool_decide (glob_star fs root (T ".gpr") = [])); [|done].
    simpl. apply elem_of_entries in Hp.
    apply orb_prop in He as [[He|He]%orb_prop|He].
    + by rewrite (glob_rec_star_entry fs root (T ".gpr") p).
    + destruct (bool_decide (glob_rec_star fs root (T ".gpr") = []));
        [|done]. simpl.
      by rewrite (glob_rec_star_entry fs root (T ".ads") p).
    + destruct (bool_decide (glob_rec_star fs root (T ".gpr") = []));
        [|done]. simpl.
      rewrite (glob_rec_star_entry fs root (T ".adb") p) by done.
      simpl. by rewrite orb_true_r.
Qed.

(** A project whose only alire.toml lies in a subdirectory is not
    detected. *)
Example detect_nested_alire_toml :
  detect (project [([T "core"], Directory);
                   ([T "core"; T "alire.toml"], plain_file demo_toml)])
         demo_root = false.
Proof. by vm_compute. Qed.

Lemma detect_iff_witness :
  detect (project [([T "src"], Directory);
                   ([T "src"; T "demo.gpr"], plain_file [])])
         demo_root = true.
Proof.
  apply (proj2 (detect_iff _ demo_root)). right.
  exists (demo_root ++ [T "src"; T "demo.gpr"]).
  split_and!; [vm_compute; by eexists|by vm_compute..].
Defined.

(** ** update_version: what it leaves alone *)

Lemma fs_write_text_frame {os : OS} fs p content :
  ∀ q, q ≠ p → (fs_write_text fs p content).2 !! q = fs !! q.
Proof.
  unfold fs_write_text, write_opened. intros q Hq.
  destruct (fs !! p) as [[|f]|].
  - done.
  - destruct (writable f); [|done].
    destruct (encodable content); [|by simpl; rewrite lookup_insert_ne].
    destruct (write_fault p content) as [[e cut]|]; simpl;
      by rewrite lookup_insert_ne.
  - destruct (fs !! path_parent p) as [[|?]|]; [|done..].
    destruct (encodable content); [|by simpl; rewrite lookup_insert_ne].
    destruct (write_fault p content) as [[e cut]|]; simpl;
      by rewrite lookup_insert_ne.
Qed.

(** X2. Whatever the store holds and whatever the operating system
    refuses, update_version runs no command, changes no entry of the
    store other than the root alire.toml and prints at most one line,
    also when it raises.  When exists on the root alire.toml returns,
    update_version returns a boolean and prints exactly one line: what
    read_text, re.sub and write_text raise is caught.  When there is no
    root alire.toml the store is as before. *)
Theorem update_version_frame {os : OS} config w :
  let root_toml := project_root config // "alire.toml" in
  ∃ r w' extra,
    update_version config w = (r, w') ∧
    invoked w' = invoked w ∧
    (∀ q, q ≠ root_toml → fs w' !! q = fs w !! q) ∧
    stdout w' = stdout w ++ extra ∧ (length extra ≤ 1)%nat ∧
    (stat_fault root_toml = None →
     ∃ ok line, r = Ok ok ∧ extra = [line]) ∧
    (fs_exists (fs w) root_toml = false → fs w' = fs w).
Proof.
  intros root_toml. unfold update_version. run_M. fold root_toml.
  destruct (stat_fault root_toml) as [e|] eqn:Hstat.
  { exists (Err e), w, []. rewrite app_nil_r. split_and!; try done.
    simpl. lia. }
  destruct (fs_exists (fs w) root_toml) eqn:Hex; simpl.
  2:{ eexists _, _, [_]. split_and!; try done. by eexists _, _. }
  destruct (fs_read_text (fs w) root_toml) as [content|e0].
  2:{ eexists _, _, [_]. split_and!; try done. by eexists _, _. }
  destruct (match re_search version_pattern content with
            | Some m => bool_decide (group1 m = version config)
            | None => false
            end).
  { eexists _, _, [_]. split_and!; try done. by eexists _, _. }
  destruct (re_sub_version (version_template (version config)) content)
    as [new|e0]; simpl.
  2:{ eexists _, _, [_]. split_and!; try done. by eexists _, _. }
  case_bool_decide as Hnew; simpl.
  { eexists _, _, [_]. split_and!; try done. by eexists _, _. }
  pose proof (fs_write_text_frame (fs w) root_toml new) as Hframe.
  destruct (fs_write_text (fs w) root_toml new) as [[[]|e0] fs'];
    simpl in *.
  - eexists _, _, [_]. split_and!; try done. by eexists _, _.
  - eexists _, _, [_]. split_and!; try done. by eexists _, _.
Qed.

Lemma update_version_frame_witness :
  ∃ ok w',
    update_version (os := full_disk) (demo_config "0.2.0")
      (world_of (project [([T "alire.toml"], plain_file demo_toml)]))
    = (Ok ok, w') ∧
    invoked w' = [] ∧
    fs w' !! demo_root = Some Directory.
Proof.
  destruct (update_version_frame (os := full_disk) (demo_config "0.2.0")
              (world_of (project [([T "alire.toml"], plain_file demo_toml)])))
    as (r & w' & extra & Hrun & Hinv & Hframe & _ & _ & Hok & _).
  destruct Hok as (ok & line & -> & _); [by vm_compute|].
  exists ok, w'. split_and!; [exact Hrun|exact Hinv|].
  rewrite Hframe; by vm_compute.
Defined.

(** The device fails while update_version writes: the error is caught,
    False is returned, and the root alire.toml is left empty. *)
Example update_version_full_disk :
  update_version (os := full_disk) (demo_config "0.2.0")
    (world_of (project [([T "alire.toml"], plain_file demo_toml)]))
  = (Ok false,
     World (project [([T "alire.toml"], plain_file [])])
           [T "Error updating root alire.toml: "
            ++ exn_str (IOError (T "No space left on device")
                          (demo_root // "alire.toml"))]
           []).
Proof. vm_compute. reflexivity. Qed.

(** A version that UTF-8 cannot encode: the same. *)
Example update_version_surrogate :
  update_version
    {| project_root := demo_root; version := [56448];
       project_name := T "demo" |}
    (world_of (project [([T "alire.toml"], plain_file demo_toml)]))
  = (Ok false,
     World (project [([T "alire.toml"], plain_file [])])
           [T "Error updating root alire.toml: "
            ++ exn_str surrogates_not_allowed]
           []).
Proof. vm_compute. reflexivity. Qed.

(** ** A second update *)

(** An attempt that fails at the head of a text fails at the head of
    the text that the substitution produces. *)
Lemma rewritten_head_none (v : text) (n : nat) (bol : bool) (c : char)
    (s : text) :
  is_value v → (length (c :: s) ≤ S n)%nat →
  (if bol then version_sub_pattern (c :: s) else None) = None →
  (if bol
   then version_sub_pattern
          (c :: sub_from n version_sub_pattern (put_value v) (c =? nl) s)
   else None) = None.
Proof.
  intros Hv Hn E. destruct bol; [|done].
  destruct (sub_from_segments v (S n) true (c :: s) Hn)
    as (segs & tail & E1 & E2 & Hok).
  simpl in E2. rewrite E in E2.
  destruct (version_sub_pattern (c :: sub_from _ _ _ _ _)) eqn:E'; [|done].
  exfalso.
  assert (match_field true (T "version") (c :: s) ≠ None) as Hs.
  { rewrite E1. apply (match_field_plug true v segs tail true); [done..|].
    rewrite <- E2.
    change (version_sub_pattern
              (c :: sub_from n version_sub_pattern (put_value v) (c =? nl) s)
            ≠ None).
    by rewrite E'. }
  done.
Qed.

(** The substitution changes nothing in a text that it produced. *)
Lemma sub_from_idem v :
  is_value v →
  ∀ n bol s n2,
    (length s ≤ n)%nat →
    (length (sub_from n version_sub_pattern (put_value v) bol s) ≤ n2)%nat →
    sub_from n2 version_sub_pattern (put_value v) bol
      (sub_from n version_sub_pattern (put_value v) bol s)
    = sub_from n version_sub_pattern (put_value v) bol s.
Proof.
  intros Hv. induction n as [|n IH]; intros bol s n2 Hn Hn2.
  - destruct s; [|simpl in Hn; lia]. simpl.
    apply sub_from_no_match, search_sub_nil.
  - destruct s as [|c s].
    { assert (sub_from (S n) version_sub_pattern (put_value v) bol [] = [])
        as -> by (apply sub_from_no_match, search_sub_nil).
      apply sub_from_no_match, search_sub_nil. }
    revert Hn2. cbn [sub_from].
    destruct (if bol then version_sub_pattern (c :: s) else None)
      as [m|] eqn:E.
    + assert (bol = true ∧ version_sub_pattern (c :: s) = Some m) as [-> Hsub]
        by (destruct bol; [done|discriminate]).
      pose proof (match_field_shorter _ _ _ _ Hsub) as Hlen.
      destruct (match_field_sound _ _ _ _ Hsub) as (Ho & _ & _).
      rewrite put_value_app. intros Hn2.
      destruct n2 as [|n2].
      { rewrite length_app in Hn2. destruct Ho as (? & ? & ? & _ & _ & _ & _ & Eo).
        rewrite Eo, !length_app in Hn2. simpl in Hn2. lia. }
      cbn [sub_from].
      rewrite (match_field_complete true (T "version") (m_open m) v)
        by (done || apply version_key_head).
      cbn [m_rest]. rewrite put_value_app. cbn [m_open].
      rewrite IH; [done|simpl in *; lia|].
      rewrite !length_app in Hn2. simpl in Hn2. lia.
    + intros Hn2. destruct n2 as [|n2]; [simpl in Hn2; lia|].
      cbn [sub_from]. rewrite rewritten_head_none by done.
      rewrite IH; [done|simpl in Hn; lia|simpl in Hn2; lia].
Qed.

Lemma rewrite_versions_idem v s :
  is_value v →
  rewrite_versions v (rewrite_versions v s) = rewrite_versions v s.
Proof. intros Hv. by apply sub_from_idem. Qed.

Lemma update_version_no_write config w content :
  fs_read_text (fs w) (project_root config // "alire.toml") = Ok content →
  already_current config content = true
  ∨ re_sub_version (version_template (version config)) content = Ok content →
  ∃ ok line,
    update_version config w
    = (Ok ok, World (fs w) (stdout w ++ [line]) (invoked w)) ∧
    ok = already_current config content.
Proof.
  intros Hread H. unfold update_version. run_M.
  rewrite (fs_read_text_exists _ _ _ Hread). simpl. rewrite Hread.
  fold (already_current config content).
  destruct (already_current config content); [by eexists _, _|].
  destruct H as [H|H]; [done|]. rewrite H. simpl.
  rewrite bool_decide_eq_true_2 by done. by eexists _, _.
Qed.

Lemma update_version_writes config w f new_content :
  fs w !! (project_root config // "alire.toml") = Some (Regular f) →
  readable f = true → writable f = true →
  already_current config (universal_newlines (data f)) = false →
  re_sub_version (version_template (version config))
    (universal_newlines (data f)) = Ok new_content →
  new_content ≠ universal_newlines (data f) →
  encodable new_content = true →
  update_version config w
  = (Ok true,
     World (<[project_root config // "alire.toml" :=
                Regular (File true true new_content)]> (fs w))
           (stdout w ++ [T "  Updated root alire.toml: version = "
                         ++ [dquote] ++ version config ++ [dquote]])
           (invoked w)).
Proof.
  intros Hf Hr Hw Hcur Hsub Hnew Henc.
  assert (fs_read_text (fs w) (project_root config // "alire.toml")
          = Ok (universal_newlines (data f))) as Hread
    by (unfold fs_read_text; by rewrite Hf, Hr).
  assert (fs_write_text (fs w) (project_root config // "alire.toml")
            new_content
          = (Ok tt,
             <[project_root config // "alire.toml" :=
                 Regular (File true true new_content)]> (fs w))) as Hwrite
    by (unfold fs_write_text, write_opened; by rewrite Hf, Hw, Hr, Henc).
  unfold update_version. run_M.
  rewrite (fs_read_text_exists _ _ _ Hread). simpl. rewrite Hread.
  fold (already_current config (universal_newlines (data f))).
  rewrite Hcur, Hsub. simpl. rewrite bool_decide_eq_false_2 by done.
  simpl. by rewrite Hwrite.
Qed.

(** X3. After an update that rewrote the root alire.toml, a second
    update_version with the same version never writes again: the store
    stays as the first call left it.  The second call returns True when
    the new text has a version field that starts in the first column of
    a line, and False otherwise.  The version is plain, not empty,
    without carriage return and encodable, as is the text of the
    file. *)
Theorem update_version_twice config w f x :
  fs w !! (project_root config // "alire.toml") = Some (Regular f) →
  readable f = true → writable f = true →
  version_field (universal_newlines (data f)) = Some x →
  x ≠ version config →
  plain (version config) = true → version config ≠ [] →
  no_cr (version config) = true →
  encodable (version config) = true → encodable (data f) = true →
  ∃ w1,
    update_version config w = (Ok true, w1) ∧
    fs w1 !! (project_root config // "alire.toml")
    = Some (Regular (File true true
                       (rewrite_versions (version config)
                          (universal_newlines (data f))))) ∧
    ∃ ok line,
      update_version config w1
      = (Ok ok, World (fs w1) (stdout w1 ++ [line]) (invoked w1)) ∧
      ok = already_current config
             (rewrite_versions (version config)
                (universal_newlines (data f))).
Proof.
  intros Hf Hr Hw Hx HX Hplain Hne Hcr Henc Hdata.
  set (c := universal_newlines (data f)) in *.
  set (v := version config) in *.
  assert (is_value v) as Hv by (split; [done|by apply plain_no_dquote]).
  assert (already_current config c = false) as Hcur.
  { unfold already_current. unfold version_field in Hx.
    destruct (re_search version_pattern c) as [m|]; [|done].
    apply bool_decide_eq_false. intros E. apply HX.
    injection Hx as <-. exact E. }
  assert (update_version config w
          = (Ok true,
             World (<[project_root config // "alire.toml" :=
                        Regular (File true true (rewrite_versions v c))]>
                      (fs w))
                   (stdout w ++ [T "  Updated root alire.toml: version = "
                                 ++ [dquote] ++ v ++ [dquote]])
                   (invoked w))) as H1.
  { apply (update_version_writes config w f (rewrite_versions v c));
      [done..| | |].
    - by apply re_sub_version_literal, plain_literal.
    - by eapply rewrite_versions_changes_field.
    - apply rewrite_versions_encodable; [done|].
      by apply universal_newlines_forallb. }
  match type of H1 with _ = (_, ?W) => set (w1 := W) in * end.
  exists w1. split; [exact H1|].
  split; [subst w1; simpl; by rewrite lookup_insert_eq|].
  apply (update_version_no_write config w1 (rewrite_versions v c)).
  - unfold fs_read_text. subst w1. simpl. rewrite lookup_insert_eq. simpl.
    f_equal. apply universal_newlines_id, rewrite_versions_no_cr; [done|].
    apply universal_newlines_no_cr.
  - right. rewrite re_sub_version_literal by by apply plain_literal.
    f_equal. by apply rewrite_versions_idem.
Qed.

Lemma update_version_twice_witness :
  ∃ w1,
    update_version (demo_config "0.2.0")
      (world_of (project [([T "alire.toml"], plain_file demo_toml)]))
    = (Ok true, w1) ∧
    ∃ line,
      update_version (demo_config "0.2.0") w1
      = (Ok true, World (fs w1) (stdout w1 ++ [line]) (invoked w1)).
Proof.
  destruct (update_version_twice (demo_config "0.2.0")
              (world_of (project [([T "alire.toml"], plain_file demo_toml)]))
              (File true true demo_toml) (T "0.1.0"))
    as (w1 & H1 & _ & ok & line & H2 & Hok); [by vm_compute..|].
  exists w1. split; [exact H1|]. exists line.
  rewrite H2, Hok. by vm_compute.
Defined.

(** ** sync_versions: the fallback on its own results *)

Lemma for_each_skip {os : OS} config (l : list path) w :
  (∀ p, p ∈ l → path_parent p = project_root config) →
  for_each l (sync_one config) w = (Ok tt, w).
Proof.
  induction l as [|p l IH]; intros H; [done|]. simpl. unfold bind.
  rewrite sync_one_skip by (apply H; by left).
  apply IH. intros q Hq. apply H. by right.
Qed.

(** X4. When sync_versions.py is at neither of its two places and no
    alire.toml lies below the project root other than the one directly in
    it, sync_versions returns True and only prints its headline: the
    store is untouched and no command runs. *)
Theorem sync_versions_no_layers {cmd_result : Type}
    (execute : command → filesys → option cmd_result * filesys)
    (sys_executable : text) config w :
  fs_exists (fs w) (project_root config // "scripts" // "release"
                      // "sync_versions.py") = false →
  fs_exists (fs w) (project_root config // "scripts"
                      // "sync_versions.py") = false →
  (∀ p, sync_target config (fs w) p = false) →
  sync_versions execute sys_executable config w
  = (Ok true, World (fs w) (stdout w ++ [sync_header]) (invoked w)).
Proof.
  intros H1 H2 Hnone. apply sync_fallback_run; [by split..|].
  apply for_each_skip. intros p Hp.
  destruct (decide (path_parent p = project_root config)) as [|Hne]; [done|].
  assert (sync_target config (fs w) p = true) as Ht
    by (by apply sync_target_spec).
  by rewrite Hnone in Ht.
Qed.

Lemma project_root_only_targets p :
  sync_target (demo_config "0.2.0")
    (project [([T "alire.toml"], plain_file demo_toml)]) p = false.
Proof.
  destruct (sync_target _ _ p) eqn:E; [|done]. exfalso.
  apply sync_target_spec in E as [(Hs & Hb & Hn)%elem_of_rglob Hpar].
  unfold project in Hs. simpl in Hs.
  destruct Hs as [n Hs]. apply lookup_union_Some_raw in Hs as [Hs|[_ Hs]].
  - apply lookup_insert_Some in Hs as [[<- _]|[_ Hs]]; [|done].
    by apply Hpar.
  - apply lookup_insert_Some in Hs as [[<- _]|[_ Hs]].
    + by vm_compute in Hb.
    + apply lookup_singleton_Some in Hs as [<- _]. by vm_compute in Hb.
Qed.

Lemma sync_versions_no_layers_witness :
  sync_versions failing_commands (T "python3") (demo_config "0.2.0")
    (world_of (project [([T "alire.toml"], plain_file demo_toml)]))
  = (Ok true,
     World (project [([T "alire.toml"], plain_file demo_toml)])
           [sync_header] []).
Proof.
  apply (sync_versions_no_layers failing_commands (T "python3")
           (demo_config "0.2.0")
           (world_of (project [([T "alire.toml"], plain_file demo_toml)])));
    [by vm_compute..|].
  apply project_root_only_targets.
Defined.

(** A target that the fallback has treated is not changed by treating it
    again, when the device takes every write. *)
Lemma synced_twice config p n n1 n2 out1 out2 :
  literal (version config) = true → is_value (version config) →
  no_cr (version config) = true →
  synced config p n n1 out1 → synced config p n1 n2 out2 → n2 = n1.
Proof.
  intros Hlit Hval Hcr Hs1 Hs2.
  assert (∀ f1, n1 = Some (Regular f1) →
                readable f1 = true → writable f1 = true →
                rewrite_versions (version config)
                  (universal_newlines (data f1))
                = universal_newlines (data f1)) as Hfix.
  { intros f1 Hn1 Hr1 Hw1.
    destruct Hs1 as [Hn|f Hn Hr|f e Hn Hr He|f Hn Hr He|f new0 Hn Hr He Hne Hw
                    |f new0 Hn Hr He Hne Hw Henc
                    |f new0 e cut Hn Hr He Hne Hw Henc Hdev
                    |f new0 Hn Hr He Hne Hw Henc Hdev].
    - congruence.
    - assert (f1 = f) as -> by congruence. congruence.
    - rewrite re_sub_version_literal in He by done. done.
    - assert (f1 = f) as -> by congruence.
      rewrite re_sub_version_literal in He by done. congruence.
    - assert (f1 = f) as -> by congruence. congruence.
    - assert (f1 = File true true []) as -> by congruence. done.
    - done.
    - assert (f1 = File true true new0) as -> by congruence.
      cbn [data]. rewrite re_sub_version_literal in He by done.
      injection He as <-.
      rewrite universal_newlines_id
        by (apply rewrite_versions_no_cr;
            [done|apply universal_newlines_no_cr]).
      by apply rewrite_versions_idem. }
  destruct Hs2 as [| | | | |f1 new Hn1 Hr1 Hsub Hnew Hw1 Henc
                  |f1 new e cut Hn1 Hr1 Hsub Hnew Hw1 Henc Hdev
                  |f1 new Hn1 Hr1 Hsub Hnew Hw1 Henc Hdev]; [done..| | |].
  - exfalso. rewrite re_sub_version_literal in Hsub by done.
    apply Hnew. injection Hsub as <-. by apply Hfix.
  - done.
  - exfalso. rewrite re_sub_version_literal in Hsub by done.
    apply Hnew. injection Hsub as <-. by apply Hfix.
Qed.

(** X5. The fallback of sync_versions reaches a fixed point in one run:
    for a version without backslash, double quote or carriage return (and
    not empty), a second sync_versions on the store that the first one
    left returns True and leaves every entry as it is. *)
Theorem sync_versions_twice {cmd_result : Type}
    (execute : command → filesys → option cmd_result * filesys)
    (sys_executable : text) config w :
  fs_exists (fs w) (project_root config // "scripts" // "release"
                      // "sync_versions.py") = false →
  fs_exists (fs w) (project_root config // "scripts"
                      // "sync_versions.py") = false →
  literal (version config) = true → is_value (version config) →
  no_cr (version config) = true →
  ∃ w1 w2,
    sync_versions execute sys_executable config w = (Ok true, w1) ∧
    sync_versions execute sys_executable config w1 = (Ok true, w2) ∧
    fs w2 = fs w1 ∧ invoked w2 = invoked w.
Proof.
  intros H1 H2 Hlit Hval Hcr.
  destruct (sync_fallback_loop execute sys_executable config w)
    as (w1 & Hrun1 & Hinv1 & Hkeep1 & Hsync1); [by split..|].
  assert (∀ q, fs w !! q = None → fs w1 !! q = None) as Hnone.
  { intros q Hq. rewrite Hkeep1; [done|].
    unfold sync_target. rewrite Hq.
    rewrite bool_decide_eq_false_2; [done|]. by intros [? ?]. }
  assert (∀ q, fs_exists (fs w) q = false → fs_exists (fs w1) q = false)
    as Hex.
  { intros q. unfold fs_exists.
    destruct (fs w !! q) eqn:E; [done|]. intros _. by rewrite (Hnone q E). }
  destruct (sync_fallback_loop execute sys_executable config w1)
    as (w2 & Hrun2 & Hinv2 & Hkeep2 & Hsync2); [by split; auto..|].
  exists w1, w2. split_and!; [done|done| |congruence].
  apply map_eq. intros p.
  destruct (sync_target config (fs w1) p) eqn:Ht1; [|by apply Hkeep2].
  destruct (Hsync2 p Ht1) as (out2 & Hs2 & _).
  destruct (sync_target config (fs w) p) eqn:Ht.
  - destruct (Hsync1 p Ht) as (out1 & Hs1 & _).
    by apply (synced_twice config p (fs w !! p) _ _ out1 out2).
  - exfalso. pose proof (Hkeep1 p Ht) as E.
    unfold sync_target in Ht, Ht1. rewrite E in Ht1. congruence.
Qed.

Lemma sync_versions_twice_witness :
  ∃ w1 w2,
    sync_versions failing_commands (T "python3") (demo_config "0.2.0")
      (world_of layered_project) = (Ok true, w1) ∧
    sync_versions failing_commands (T "python3") (demo_config "0.2.0") w1
    = (Ok true, w2) ∧
    fs w2 = fs w1 ∧ invoked w2 = invoked (world_of layered_project).
Proof.
  apply (sync_versions_twice failing_commands (T "python3")
           (demo_config "0.2.0") (world_of layered_project));
    [by vm_compute..| |by vm_compute].
  split; [|by vm_compute]. by vm_compute.
Defined.

(** ** The commands that the adapter runs *)

(** Closes a goal that differs by the bracketing of the appended
    lines and commands. *)
Ltac by_assoc := simpl; rewrite <- ?app_assoc, ?app_nil_r; reflexivity.

Section CommandTraces.
Context {cmd_result : Type}.
Variable truthy : cmd_result → bool.
Variable execute : command → filesys → option cmd_result * filesys.
Variable sys_executable : text.

Lemma find_script_exists (fs : filesys) root name script :
  find_script fs root name = Some script →
  fs_exists fs script = true ∧
  (if negb (fs_exists fs (child (root // "scripts" // "release") name))
   then child (root // "scripts") name
   else child (root // "scripts" // "release") name) = script.
Proof.
  unfold find_script.
  destruct (fs_exists fs (child (root // "scripts" // "release") name)) eqn:E1.
  - intros [= <-]. done.
  - destruct (fs_exists fs (child (root // "scripts") name)) eqn:E2; [|done].
    intros [= <-]. done.
Qed.

(** X6. When sync_versions.py exists (under scripts/release, or else
    under scripts), sync_versions hands the work over: it runs the one
    command [sys.executable, script, version] in the project root with
    the output captured and returns whether the command gave a result.
    The fallback loop is not entered, also when the command fails: the
    store is the one the command left and the headline is the only line
    printed. *)
Theorem sync_versions_delegates config w script :
  find_script (fs w) (project_root config) (T "sync_versions.py")
  = Some script →
  let c := Command [sys_executable; path_str script; version config]
                   (project_root config) true in
  sync_versions execute sys_executable config w
  = (Ok (is_not_None (execute c (fs w)).1),
     World (execute c (fs w)).2 (stdout w ++ [sync_header])
           (invoked w ++ [c])).
Proof.
  intros [Hex Hsel]%find_script_exists c. subst c.
  unfold sync_versions, run_command. run_M. unfold child in *.
  rewrite Hsel, Hex. simpl.
  by destruct (execute _ _) as [r fs'].
Qed.

(** X7. When generate_version.py exists (under scripts/release, or else
    under scripts), generate_version_file announces the package, runs
    the one command [sys.executable, script, alire.toml,
    shared/src/<lower-cased project name>-version.ads] in the project
    root and returns whether the command gave a result; the line
    Generated ... is printed only for a result that counts as true, so a
    result that is not None but counts as false gives True without that
    line. *)
Theorem generate_version_file_runs config w script :
  find_script (fs w) (project_root config) (T "generate_version.py")
  = Some script →
  let file_path :=
    T "shared/src/" ++ lower (project_name config) ++ T "-version.ads" in
  let c := Command [sys_executable; path_str script; T "alire.toml";
                    file_path] (project_root config) true in
  generate_version_file truthy execute sys_executable config w
  = (Ok (is_not_None (execute c (fs w)).1),
     World (execute c (fs w)).2
           (stdout w
            ++ [T "Generating " ++ package_name config
                ++ T ".Version package..."]
            ++ (if is_truthy truthy (execute c (fs w)).1
                then [T "  Generated " ++ file_path] else []))
           (invoked w ++ [c])).
Proof.
  intros [Hex Hsel]%find_script_exists file_path c. subst c file_path.
  unfold generate_version_file, run_command. run_M. unfold child in *.
  rewrite Hsel, Hex. simpl.
  destruct (execute _ _) as [r fs']. simpl.
  destruct (is_truthy truthy r); simpl; by_assoc.
Qed.

(** X8. run_build runs make clean and make build when there is a
    Makefile in the project root, and alr build unless make build gave a
    result that counts as true.  It returns the truth value of the
    result of the last command it ran (the result of make clean plays no
    part), and the store is the one these commands leave. *)
Theorem run_build_trace config w :
  let root := project_root config in
  let clean := Command [T "make"; T "clean"] root true in
  let build := Command [T "make"; T "build"] root false in
  let alr := Command [T "alr"; T "build"] root false in
  let succeeded (cs : list command) :=
    from_option (is_truthy truthy) false (last (run_all execute cs (fs w)).1) in
  let made := fs_exists (fs w) (root // "Makefile")
              && succeeded [clean; build] in
  let cs := (if fs_exists (fs w) (root // "Makefile")
             then [clean; build] else [])
            ++ (if made then [] else [alr]) in
  run_build truthy execute config w
  = (Ok (succeeded cs),
     World (run_all execute cs (fs w)).2
           (stdout w
            ++ [T "Running Ada build...";
                if made then T "  Build successful (via make)"
                else if succeeded cs then T "  Build successful"
                     else T "  Build failed"])
           (invoked w ++ cs)).
Proof.
  intros root clean build alr succeeded made cs.
  subst cs made succeeded. cbv zeta.
  unfold run_build, run_command. run_M. fold root. fold clean build alr.
  destruct (fs_exists (fs w) (root // "Makefile")); simpl.
  - destruct (execute clean (fs w)) as [r0 fs0]; simpl.
    destruct (execute build fs0) as [r1 fs1]; simpl.
    destruct (is_truthy truthy r1) eqn:E1; simpl.
    + rewrite ?E1. by_assoc.
    + rewrite ?E1. destruct (execute alr fs1) as [r2 fs2]; simpl.
      destruct (is_truthy truthy r2) eqn:E2; simpl; by_assoc.
  - destruct (execute alr (fs w)) as [r2 fs2]; simpl.
    destruct (is_truthy truthy r2) eqn:E2; simpl; by_assoc.
Qed.

(** X9. run_tests and run_format run one command, make test or make
    format with the output captured, exactly when there is a Makefile in
    the project root; the success line is printed for any result that is
    not None, the other line otherwise. *)
Theorem make_target_trace config w :
  let root := project_root config in
  let cs (target : text) :=
    if fs_exists (fs w) (root // "Makefile")
    then [Command [T "make"; target] root true] else [] in
  let ran (target : text) :=
    from_option is_not_None false
      (last (run_all execute (cs target) (fs w)).1) in
  run_tests execute config w
  = (Ok true,
     World (run_all execute (cs (T "test")) (fs w)).2
           (stdout w
            ++ [T "Running Ada tests...";
                if ran (T "test") then T "  All tests passed (via make)"
                else T "  No test target found"])
           (invoked w ++ cs (T "test"))) ∧
  run_format execute config w
  = (Ok true,
     World (run_all execute (cs (T "format")) (fs w)).2
           (stdout w
            ++ [T "Formatting Ada code...";
                if ran (T "format") then T "  Code formatted (via make)"
                else T "  Format target not available (gnatpp/adafmt)"])
           (invoked w ++ cs (T "format"))).
Proof.
  intros root cs ran. subst cs ran. cbv zeta. split.
  - unfold run_tests, run_command. run_M. fold root.
    destruct (fs_exists (fs w) (root // "Makefile")); simpl.
    + destruct (execute _ (fs w)) as [[r|] fs0]; simpl;
        by_assoc.
    + by_assoc.
  - unfold run_format, run_command. run_M. fold root.
    destruct (fs_exists (fs w) (root // "Makefile")); simpl.
    + destruct (execute _ (fs w)) as [[r|] fs0]; simpl;
        by_assoc.
    + by_assoc.
Qed.

(** X10. cleanup_temp_files runs the cleanup script first when it
    exists, and make clean only when the script is absent or its command
    gave None, and then only when there is a Makefile in the store that
    the script left.  Nothing is run when there is neither script nor
    Makefile. *)
Theorem cleanup_temp_files_trace config w :
  let root := project_root config in
  let script := root // "scripts" // "cleanup_temp_files.py" in
  let by_script := Command [sys_executable; path_str script] root true in
  let by_make := Command [T "make"; T "clean"] root true in
  let ran (cs : list command) (fs : filesys) :=
    from_option is_not_None false (last (run_all execute cs fs).1) in
  let cs1 := if fs_exists (fs w) script then [by_script] else [] in
  let fs1 := (run_all execute cs1 (fs w)).2 in
  let cs2 := if ran cs1 (fs w) then []
             else if fs_exists fs1 (root // "Makefile") then [by_make]
                  else [] in
  cleanup_temp_files execute sys_executable config w
  = (Ok true,
     World (run_all execute cs2 fs1).2
           (stdout w
            ++ [T "Cleaning up temporary files...";
                if ran cs1 (fs w) then T "  Cleaned (via cleanup script)"
                else if ran cs2 fs1 then T "  Cleaned (via make)"
                     else T "  Cleaned"])
           (invoked w ++ cs1 ++ cs2)).
Proof.
  intros root script by_script by_make ran cs1 fs1 cs2.
  subst cs2 fs1 cs1 ran. cbv zeta.
  unfold cleanup_temp_files, run_command. run_M.
  fold root. fold script. fold by_script by_make.
  destruct (fs_exists (fs w) script); simpl.
  - destruct (execute by_script (fs w)) as [[r|] fs0]; simpl.
    + by_assoc.
    + destruct (fs_exists fs0 (root // "Makefile")); simpl.
      * destruct (execute by_make fs0) as [[r|] fs1]; simpl;
          by_assoc.
      * by_assoc.
  - destruct (fs_exists (fs w) (root // "Makefile")); simpl.
    + destruct (execute by_make (fs w)) as [[r|] fs1]; simpl;
        by_assoc.
    + by_assoc.
Qed.

End CommandTraces.

Section CommandInvariant.
Context {os : OS} {cmd_result : Type}.
Variable truthy : cmd_result → bool.
Variable execute : command → filesys → option cmd_result * filesys.
Variable sys_executable : text.

Ltac executed :=
  repeat (simpl; match goal with
                 | H : execute _ _ = _ |- _ => rewrite H; clear H
                 end).

Ltac only_commands cs :=
  eexists _, _, cs, _;
  split_and!;
  [reflexivity | by_assoc | by executed
  | repeat (apply Forall_cons_2; [reflexivity|]); apply Forall_nil_2
  | first [ simpl; rewrite <- ?app_assoc; reflexivity
          | symmetry; apply app_nil_r ] ].

(** X11. run_build, run_tests, run_format, cleanup_temp_files and
    generate_version_file never touch a file themselves.  Whatever the
    operating system refuses, and whether the function returns or an
    exists call in it raises, it has only added lines to the output, and
    the store is the one that the commands it ran leave, run one after
    the other, each in the project root. *)
Theorem runners_commands_only config w :
  let root := project_root config in
  commands_only execute root (run_build truthy execute config) w ∧
  commands_only execute root (run_tests execute config) w ∧
  commands_only execute root (run_format execute config) w ∧
  commands_only execute root
    (cleanup_temp_files execute sys_executable config) w ∧
  commands_only execute root
    (generate_version_file truthy execute sys_executable config) w.
Proof.
  intros root. unfold commands_only. split_and!.
  - unfold run_build, run_command. run_M. fold root.
    set (clean := Command [T "make"; T "clean"] root true).
    set (build := Command [T "make"; T "build"] root false).
    set (alr := Command [T "alr"; T "build"] root false).
    destruct (stat_fault (root // "Makefile")) as [e|];
      [only_commands (@nil command)|].
    destruct (fs_exists (fs w) (root // "Makefile")); simpl.
    + destruct (execute clean (fs w)) as [r0 fs0] eqn:E0; simpl.
      destruct (execute build fs0) as [r1 fs1] eqn:E1; simpl.
      destruct (is_truthy truthy r1); simpl.
      * only_commands [clean; build].
      * destruct (execute alr fs1) as [r2 fs2] eqn:E2; simpl.
        destruct (is_truthy truthy r2); simpl;
          only_commands [clean; build; alr].
    + destruct (execute alr (fs w)) as [r2 fs2] eqn:E2; simpl.
      destruct (is_truthy truthy r2); simpl; only_commands [alr].
  - unfold run_tests, run_command. run_M. fold root.
    set (test := Command [T "make"; T "test"] root true).
    destruct (stat_fault (root // "Makefile")) as [e|];
      [only_commands (@nil command)|].
    destruct (fs_exists (fs w) (root // "Makefile")); simpl.
    + destruct (execute test (fs w)) as [[r|] fs0] eqn:E0; simpl;
        only_commands [test].
    + only_commands (@nil command).
  - unfold run_format, run_command. run_M. fold root.
    set (format := Command [T "make"; T "format"] root true).
    destruct (stat_fault (root // "Makefile")) as [e|];
      [only_commands (@nil command)|].
    destruct (fs_exists (fs w) (root // "Makefile")); simpl.
    + destruct (execute format (fs w)) as [[r|] fs0] eqn:E0; simpl;
        only_commands [format].
    + only_commands (@nil command).
  - unfold cleanup_temp_files, run_command. run_M. fold root.
    set (script := root // "scripts" // "cleanup_temp_files.py").
    set (by_script := Command [sys_executable; path_str script] root true).
    set (by_make := Command [T "make"; T "clean"] root true).
    destruct (stat_fault script) as [e|]; [only_commands (@nil command)|].
    destruct (fs_exists (fs w) script); simpl.
    + destruct (execute by_script (fs w)) as [[r|] fs0] eqn:E0; simpl.
      * only_commands [by_script].
      * destruct (stat_fault (root // "Makefile")) as [e|];
          [only_commands [by_script]|].
        destruct (fs_exists fs0 (root // "Makefile")); simpl.
        -- destruct (execute by_make fs0) as [[r|] fs1] eqn:E1; simpl;
             only_commands [by_script; by_make].
        -- only_commands [by_script].
    + destruct (stat_fault (root // "Makefile")) as [e|];
        [only_commands (@nil command)|].
      destruct (fs_exists (fs w) (root // "Makefile")); simpl.
      * destruct (execute by_make (fs w)) as [[r|] fs1] eqn:E1; simpl;
          only_commands [by_make].
      * only_commands (@nil command).
  - unfold generate_version_file, run_command. run_M. fold root.
    destruct (stat_fault
                (root // "scripts" // "release" // "generate_version.py"))
      as [e|] eqn:S1; [only_commands (@nil command)|].
    destruct (fs_exists (fs w)
                (root // "scripts" // "release" // "generate_version.py"))
      eqn:E; simpl; rewrite ?S1, ?E; simpl.
    + match goal with
      | |- context [execute ?c (fs w)] =>
          destruct (execute c (fs w)) as [r fs0] eqn:E0; simpl;
          destruct (is_truthy truthy r); simpl; only_commands [c]
      end.
    + destruct (stat_fault (root // "scripts" // "generate_version.py"))
        as [e|]; [only_commands (@nil command)|].
      destruct (fs_exists (fs w)
                  (root // "scripts" // "generate_version.py")); simpl.
      * match goal with
        | |- context [execute ?c (fs w)] =>
            destruct (execute c (fs w)) as [r fs0] eqn:E0; simpl;
            destruct (is_truthy truthy r); simpl; only_commands [c]
        end.
      * only_commands (@nil command).
Qed.

End CommandInvariant.

Lemma sync_versions_delegates_witness :
  sync_versions failing_commands (T "python3") (demo_config "0.2.0")
    (world_of scripted_project)
  = (Ok false,
     World scripted_project [sync_header]
           [Command [T "python3";
                     path_str (demo_root // "scripts" // "sync_versions.py");
                     T "0.2.0"] demo_root true]).
Proof.
  pose proof (sync_versions_delegates failing_commands (T "python3")
                (demo_config "0.2.0") (world_of scripted_project)
                (demo_root // "scripts" // "sync_versions.py")) as W.
  vm_compute in W. vm_compute. by apply W.
Defined.

Lemma generate_version_file_runs_witness :
  generate_version_file (λ b : bool, b) falsy_commands (T "python3")
    (demo_config "0.2.0") (world_of scripted_project)
  = (Ok true,
     World scripted_project [T "Generating Demo.Version package..."]
           [Command [T "python3";
                     path_str (demo_root // "scripts"
                                 // "generate_version.py");
                     T "alire.toml"; T "shared/src/demo-version.ads"]
                    demo_root true]).
Proof.
  pose proof (generate_version_file_runs (λ b : bool, b) falsy_commands
                (T "python3") (demo_config "0.2.0")
                (world_of scripted_project)
                (demo_root // "scripts" // "generate_version.py")) as W.
  vm_compute in W. vm_compute. by apply W.
Defined.

(** ** load_project_info: what it returns and when it raises *)

Lemma search_from_found pat bol s m :
  search_from pat bol s = Some m → ∃ t, pat t = Some m.
Proof.
  revert bol. induction s as [|c s IH]; intros bol; simpl.
  - destruct bol; [|done]. destruct (pat []) eqn:E; [|done].
    intros [= <-]. by exists [].
  - destruct bol.
    + destruct (pat (c :: s)) eqn:E.
      * intros [= <-]. by exists (c :: s).
      * apply IH.
    + apply IH.
Qed.

Lemma re_search_field key s m :
  re_search (match_field false key) s = Some m → is_value (m_value m).
Proof.
  intros [t Ht]%search_from_found.
  by apply match_field_sound in Ht as (_ & ? & _).
Qed.

Lemma forallb_take {A} (f : A → bool) n (l : list A) :
  forallb f l = true → forallb f (take n l) = true.
Proof.
  revert n. induction l as [|a l IH]; intros [|n]; simpl; try done.
  intros [-> ?]%andb_prop. simpl. by apply IH.
Qed.

(** X12. load_project_info only reads: the store, the output and the
    commands run are as before, also when it raises.  It raises exactly
    when exists on alire.toml raises, or alire.toml exists and read_text
    fails, with that error.  Otherwise it returns a name that is empty
    only when the project root has no base name, and a url without
    double quote. *)
Theorem load_project_info_outcome {os : OS} config w :
  let alire_toml := project_root config // "alire.toml" in
  (load_project_info config w).2 = w ∧
  match (load_project_info config w).1 with
  | Err e =>
      stat_fault alire_toml = Some e ∨
      (stat_fault alire_toml = None ∧
       fs_exists (fs w) alire_toml = true ∧
       fs_read_text (fs w) alire_toml = Err e)
  | Ok (name, url) =>
      stat_fault alire_toml = None ∧
      (fs_exists (fs w) alire_toml = false
       ∨ ∃ content, fs_read_text (fs w) alire_toml = Ok content) ∧
      (name = [] → path_name (project_root config) = []) ∧
      forallb not_dquote url = true
  end.
Proof.
  intros alire_toml. unfold load_project_info. run_M. fold alire_toml.
  destruct (stat_fault alire_toml) as [e|] eqn:Hstat; simpl.
  { split; [done|by left]. }
  destruct (fs_exists (fs w) alire_toml) eqn:Hex; simpl.
  - destruct (fs_read_text (fs w) alire_toml) as [content|e] eqn:Hread;
      simpl; [|split; [done|by right]].
    split; [done|]. split_and!.
    + done.
    + right. by exists content.
    + destruct (re_search name_pattern content) as [m|] eqn:Hn; [|done].
      apply re_search_field in Hn as [Hne _]. unfold group1.
      by destruct (m_value m).
    + destruct (re_search website_pattern content) as [m|] eqn:Hs; [|done].
      apply re_search_field in Hs as [_ Hq]. unfold group1.
      destruct (endswith (m_value m) (T ".git")); [|done].
      by apply forallb_take.
  - split; [done|]. split_and!; [done|by left|done|done].
Qed.

(** ** The package name and the file name *)

Lemma lower_upper_char c : lower_char (upper_char c) = lower_char c.
Proof.
  unfold upper_char, lower_char, is_upper, is_lower.
  destruct (97 <=? c) eqn:E1, (c <=? 122) eqn:E2; simpl; try done.
  apply N.leb_le in E1, E2.
  replace (65 <=? c - 32) with true by (symmetry; apply N.leb_le; lia).
  replace (c - 32 <=? 90) with true by (symmetry; apply N.leb_le; lia).
  replace (65 <=? c) with true by (symmetry; apply N.leb_le; lia).
  replace (c <=? 90) with false by (symmetry; apply N.leb_gt; lia).
  simpl. lia.
Qed.

Lemma lower_capitalize s : lower (capitalize s) = lower s.
Proof.
  destruct s as [|c s]; [done|]. simpl. unfold lower at 1. simpl.
  rewrite lower_upper_char. f_equal. apply lower_idem.
Qed.

Lemma split_nonempty sep s : split sep s ≠ [].
Proof.
  destruct s as [|c s]; simpl; [done|].
  destruct (c =? sep); [done|]. by destruct (split sep s).
Qed.

Lemma join_split sep s : join [sep] (split sep s) = s.
Proof.
  induction s as [|c s IH]; [done|]. simpl.
  destruct (c =? sep) eqn:E.
  - apply N.eqb_eq in E as ->.
    destruct (split sep s) as [|w ws] eqn:Es; [by apply split_nonempty in Es|].
    change (join [sep] ([] :: w :: ws)) with (sep :: join [sep] (w :: ws)).
    by rewrite IH.
  - destruct (split sep s) as [|w ws] eqn:Es; [by apply split_nonempty in Es|].
    rewrite <- IH. by destruct ws.
Qed.

Lemma lower_char_is_underscore c :
  (lower_char c =? underscore) = (c =? underscore).
Proof.
  destruct (c =? underscore) eqn:E.
  - apply N.eqb_eq in E as ->. by vm_compute.
  - apply N.eqb_neq. intros H. apply lower_char_underscore in H.
    by apply N.eqb_neq in E.
Qed.

Lemma split_lower s :
  split underscore (lower s) = lower <$> split underscore s.
Proof.
  induction s as [|c s IH]; [done|].
  change (lower (c :: s)) with (lower_char c :: lower s). cbn [split].
  rewrite lower_char_is_underscore, IH.
  destruct (c =? underscore); [done|]. by destruct (split underscore s).
Qed.

(** X13. For an ASCII project name, the package name is the project
    name up to letter case: lower-casing it gives the lower-cased
    project name.  So the file that generate_version_file asks for,
    shared/src/<lower-cased project name>-version.ads, carries the
    lower-cased name of the package it announces.  (Outside ASCII
    str.lower and str.capitalize follow the Unicode tables, which
    [lower] and [capitalize] do not.) *)
Theorem package_name_lower config :
  is_ascii (project_name config) = true →
  lower (package_name config) = lower (project_name config).
Proof.
  intros _. unfold package_name. case_bool_decide as Hspecial.
  - rewrite Hspecial. by vm_compute.
  - change (T "_") with [underscore].
    rewrite lower_join, <- list_fmap_compose.
    rewrite (list_fmap_ext (lower ∘ capitalize) lower)
      by (intros ? x ?; apply lower_capitalize).
    rewrite <- split_lower, lower_idem. apply join_split.
Qed.

Lemma package_name_lower_witness :
  lower (package_name
           {| project_root := demo_root; version := T "0.2.0";
              project_name := T "Release_TOOL_v2" |})
  = T "release_tool_v2".
Proof.
  rewrite package_name_lower; by vm_compute.
Defined.
